(** * Glidepath: the simulated flight feed and its aggregations

    A shallow embedding of the logic of [src/index.jsx]: the mock flight
    generator, the five-second refresh step, the search predicate, the
    chart aggregations and the label wrapper, followed by the properties
    the specification states about them.

    Conventions of the embedding.
    - A JavaScript string is the sequence of its code units; the model
      covers code units below 256 (Rocq's [ascii]).  Every string the
      program builds itself is in that range.
    - A JavaScript number holding an integer is a [Z]; the results of
      [Math.random()] and the route coordinates are rationals ([Q]).  A
      literal such as [0.9] is the double it denotes, so comparisons are
      those of the code; products are exact, where the code rounds them
      to a double before [Math.floor].
    - [Math.random()] and [Date.now()] read from a [World] that is
      threaded through the code by a state monad.
    - The status of a flight and the airport codes are the members of the
      fixed arrays [statuses] and [airports] of the source; they are
      enumerations here, with their source text given by [status_label]
      and [airport_code]. *)

From Stdlib Require Import List String Ascii Bool Arith NArith ZArith.
From Stdlib Require Import QArith Qround Lia DecimalString Sorted Permutation.
Import ListNotations.

Local Open Scope Z_scope.

(* ================================================================= *)
(** ** JavaScript strings *)

Module JsString.

Local Open Scope N_scope.

(** Code units below 256 that [String.prototype.toLowerCase] changes:
    A-Z and the Latin-1 capitals U+00C0..U+00DE without U+00D7. *)
Definition has_lower (n : N) : bool :=
  ((65 <=? n) && (n <=? 90)) ||
  ((192 <=? n) && (n <=? 222) && negb (n =? 215)).

Definition lower_unit (c : ascii) : ascii :=
  let n := N_of_ascii c in
  if has_lower n then ascii_of_N (n + 32) else c.

(** [toUpperCase] on the ASCII letters; the program applies it to the
    airline names only. *)
Definition upper_unit (c : ascii) : ascii :=
  let n := N_of_ascii c in
  if (97 <=? n) && (n <=? 122) then ascii_of_N (n - 32) else c.

Fixpoint map_units (f : ascii -> ascii) (s : string) : string :=
  match s with
  | EmptyString => EmptyString
  | String c t => String (f c) (map_units f t)
  end.

Definition toLowerCase : string -> string := map_units lower_unit.
Definition toUpperCase : string -> string := map_units upper_unit.

(** [s.includes(needle)]: [needle] starts at some position of [s]. *)
Fixpoint includes (s needle : string) : bool :=
  String.prefix needle s ||
  match s with
  | EmptyString => false
  | String _ t => includes t needle
  end.

(** [s.split(sep)] for a separator of one code unit. *)
Fixpoint split (sep : ascii) (s : string) : list string :=
  match s with
  | EmptyString => [EmptyString]
  | String c t =>
      if Ascii.eqb c sep then EmptyString :: split sep t
      else match split sep t with
           | w :: ws => String c w :: ws
           | [] => [String c EmptyString]
           end
  end.

(** White space removed by [trim], among the code units below 256. *)
Definition is_space (c : ascii) : bool :=
  let n := N_of_ascii c in
  ((9 <=? n) && (n <=? 13)) || (n =? 32) || (n =? 160).

Fixpoint trimStart (s : string) : string :=
  match s with
  | EmptyString => EmptyString
  | String c t => if is_space c then trimStart t else s
  end.

Fixpoint trimEnd (s : string) : string :=
  match s with
  | EmptyString => EmptyString
  | String c t =>
      match trimEnd t with
      | EmptyString => if is_space c then EmptyString else String c EmptyString
      | t' => String c t'
      end
  end.

Definition trim (s : string) : string := trimEnd (trimStart s).

(** Truthiness of a string: the empty string is the only falsy one. *)
Definition truthy (s : string) : bool :=
  match s with EmptyString => false | _ => true end.

(** [s.substr(start, len)] and [s.substring(0, len)] for indices within
    the non-negative range the program uses. *)
Definition substr (start len : nat) (s : string) : string :=
  String.substring start len s.

(** [String.fromCharCode(n)] for a code unit below 256. *)
Definition fromCharCode (n : Z) : string :=
  String (ascii_of_N (Z.to_N n)) EmptyString.

(** A template literal interpolating an integer prints it in decimal. *)
Definition of_integer (n : Z) : string :=
  NilZero.string_of_int (Z.to_int n).

End JsString.

(* ================================================================= *)
(** ** JavaScript arrays *)

Module JsArray.

(** The relative index of [Array.prototype.slice]: a negative index
    counts from the end, and both ends are clamped to the array. *)
Definition relIndex (len i : Z) : Z :=
  if i <? 0 then Z.max (len + i) 0 else Z.min i len.

(** [l.slice(start, end)]; [None] for an omitted [end]. *)
Definition slice {A : Type} (start : Z) (end_ : option Z) (l : list A)
  : list A :=
  let len := Z.of_nat (List.length l) in
  let k := relIndex len start in
  let final := match end_ with
               | None => len
               | Some e => relIndex len e
               end in
  firstn (Z.to_nat (final - k)) (skipn (Z.to_nat k) l).

(** Insertion of [x] in front of the first element it does not come
    after: with [x] taken from the left of an already sorted tail this
    is the stable order [Array.prototype.sort] produces. *)
Fixpoint insert {A : Type} (cmp : A -> A -> Z) (x : A) (l : list A)
  : list A :=
  match l with
  | [] => [x]
  | y :: t => if cmp x y <=? 0 then x :: y :: t else y :: insert cmp x t
  end.

(** [l.sort(cmp)]: elements in the order of [cmp], equal ones in their
    original order. *)
Fixpoint sort {A : Type} (cmp : A -> A -> Z) (l : list A) : list A :=
  match l with
  | [] => []
  | x :: t => insert cmp x (sort cmp t)
  end.

End JsArray.

(* ================================================================= *)
(** ** JavaScript objects used as counters *)

Module JsObject.

Section Props.
Context {K V : Type} (eqb : K -> K -> bool).

(** Own properties in insertion order (no key of the program is an
    array index). *)
Definition obj : Type := list (K * V).

Fixpoint get (k : K) (o : obj) : option V :=
  match o with
  | [] => None
  | (k', v) :: t => if eqb k k' then Some v else get k t
  end.

(** Assignment keeps the position of an existing key and appends a
    new one. *)
Fixpoint set (k : K) (v : V) (o : obj) : obj :=
  match o with
  | [] => [(k, v)]
  | (k', v') :: t =>
      if eqb k k' then (k', v) :: t else (k', v') :: set k v t
  end.

Definition keys (o : obj) : list K := map fst o.
Definition values (o : obj) : list V := map snd o.
Definition entries (o : obj) : list (K * V) := o.
End Props.

(** [x || 0] for a counter that is a number or [undefined]. *)
Definition or_zero (x : option Z) : Z :=
  match x with
  | Some n => n
  | None => 0
  end.

End JsObject.

(* ================================================================= *)
(** ** The world: random numbers and the clock *)

Record World : Type := mkWorld {
  randoms : nat -> Q;   (* the successive results of Math.random() *)
  clock : nat -> Z      (* the successive results of Date.now() *)
}.

Definition M (A : Type) : Type := World -> A * World.

Definition ret {A : Type} (a : A) : M A := fun w => (a, w).

Definition bind {A B : Type} (m : M A) (k : A -> M B) : M B :=
  fun w => let (a, w') := m w in k a w'.

Declare Scope js_scope.
Delimit Scope js_scope with js.
Notation "x <- m ;; k" := (bind m (fun x => k))
  (at level 61, m at next level, right associativity) : js_scope.
Local Open Scope js_scope.

Definition Math_random : M Q :=
  fun w => (randoms w 0%nat,
            mkWorld (fun n => randoms w (S n)) (clock w)).

Definition Date_now : M Z :=
  fun w => (clock w 0%nat,
            mkWorld (randoms w) (fun n => clock w (S n))).

(** [Math.floor(x)] *)
Definition Math_floor (x : Q) : Z := Qfloor x.

(** Every result of [Math.random()] lies in [0, 1). *)
Definition unit_draw (r : Q) : Prop := (0 <= r)%Q /\ (r < 1)%Q.
Definition unit_world (w : World) : Prop :=
  forall n, unit_draw (randoms w n).

(** A world whose draws are those of a list, then a constant. *)
Definition world_of (draws : list Q) (rest : Q) (now : Z) : World :=
  mkWorld (fun n => nth n draws rest) (fun _ => now).

Fixpoint mapM {A B : Type} (f : A -> M B) (l : list A) : M (list B) :=
  match l with
  | [] => ret []
  | x :: t => y <- f x ;; ys <- mapM f t ;; ret (y :: ys)
  end.

Fixpoint replicateM {A : Type} (n : nat) (m : M A) : M (list A) :=
  match n with
  | O => ret []
  | S n' => x <- m ;; xs <- replicateM n' m ;; ret (x :: xs)
  end.

(** Library functions whose result depends on the host: the locale's
    time of day for a time value in milliseconds, and the base-36 text of
    a fraction. *)
Class Host : Type := {
  toLocaleTimeString : Z -> string;
  toString36 : Q -> string
}.

(* ================================================================= *)
(** ** Flight records *)

Inductive Status : Type := OnTime | Delayed | Departed | Arrived | Cancelled.

Inductive Airport : Type :=
  JFK | LHR | DXB | NRT | SYD | FRA | CDG | SIN | LAX | PEK.

Scheme Equality for Status.
Scheme Equality for Airport.

Definition status_label (s : Status) : string :=
  match s with
  | OnTime => "On Time"
  | Delayed => "Delayed"
  | Departed => "Departed"
  | Arrived => "Arrived"
  | Cancelled => "Cancelled"
  end.

Definition airport_code (a : Airport) : string :=
  match a with
  | JFK => "JFK" | LHR => "LHR" | DXB => "DXB" | NRT => "NRT"
  | SYD => "SYD" | FRA => "FRA" | CDG => "CDG" | SIN => "SIN"
  | LAX => "LAX" | PEK => "PEK"
  end.

Record Coord : Type := mkCoord { lat : Q; lon : Q }.

Record Flight : Type := mkFlight {
  id : string;
  flightNumber : string;
  origin : Airport;
  destination : Airport;
  status : Status;
  isDelayed : Z;
  estimatedArrival : string;
  actualDeparture : string;
  aircraftType : string;
  altitude : Z;
  speed : Z;
  gate : Z;
  terminal : string;
  routeCoords : list Coord
}.

(** [{ ...f, status: 'Delayed', isDelayed: d }] *)
Definition with_delay (f : Flight) (d : Z) : Flight :=
  mkFlight (id f) (flightNumber f) (origin f) (destination f)
           Delayed d
           (estimatedArrival f) (actualDeparture f) (aircraftType f)
           (altitude f) (speed f) (gate f) (terminal f) (routeCoords f).

(** [{ ...f, status: 'Arrived', altitude: 0, speed: 0 }] *)
Definition with_arrival (f : Flight) : Flight :=
  mkFlight (id f) (flightNumber f) (origin f) (destination f)
           Arrived (isDelayed f)
           (estimatedArrival f) (actualDeparture f) (aircraftType f)
           0 0 (gate f) (terminal f) (routeCoords f).

(* ================================================================= *)
(** ** Mock flight generation *)

Definition statuses : list Status :=
  [OnTime; Delayed; Departed; Arrived; Cancelled].
Definition airlines : list string :=
  ["SkyLink"; "GlobalAir"; "Oceanic"; "StarFlight"; "ConnectAir"]%string.
Definition airports : list Airport :=
  [JFK; LHR; DXB; NRT; SYD; FRA; CDG; SIN; LAX; PEK].
Definition aircraftTypes : list string :=
  ["Boeing 747"; "Airbus A320"; "Boeing 737"; "Embraer 190"]%string.

(** [Math.floor(Math.random() * n)], on the exact product *)
Definition random_below (n : Z) : M Z :=
  r <- Math_random ;; ret (Math_floor (r * inject_Z n)).

(** [arr[Math.floor(Math.random() * arr.length)]]; [d] stands for the
    [undefined] of an index outside the array, which no draw of [0, 1)
    reaches. *)
Definition pick {A : Type} (arr : list A) (d : A) : M A :=
  i <- random_below (Z.of_nat (List.length arr)) ;;
  ret (nth (Z.to_nat i) arr d).

(** The value of [new Date(t)] for a fractional [t]: the time value is
    truncated to whole milliseconds. *)
Definition time_clip (t : Q) : Z :=
  if Qle_bool 0 t then Qfloor t else Qceiling t.

Definition random_coord : M Coord :=
  a <- Math_random ;;
  b <- Math_random ;;
  ret (mkCoord (a * 180 - 90)%Q (b * 360 - 180)%Q).

Section Generator.
Context `{Host}.

Definition generateMockFlight : M Flight :=
  randomStatus <- pick statuses Cancelled ;;
  isDelayed_ <- (if Status_beq randomStatus Delayed
                 then n <- random_below 120 ;; ret (n + 10)
                 else ret 0) ;;
  now1 <- Date_now ;;
  r1 <- Math_random ;;
  let estimatedArrival_ :=
    time_clip (inject_Z now1 + r1 * 3600000 * 5)%Q in
  now2 <- Date_now ;;
  r2 <- Math_random ;;
  let actualDeparture_ :=
    time_clip (inject_Z now2 - r2 * 3600000 * 5)%Q in
  rid <- Math_random ;;
  airline <- pick airlines EmptyString ;;
  num <- random_below 900 ;;
  origin_ <- pick airports PEK ;;
  destination_ <- pick airports PEK ;;
  aircraftType_ <- pick aircraftTypes EmptyString ;;
  altitude_ <- (if Status_beq randomStatus Departed
                then random_below 40000
                else ret 0) ;;
  speed_ <- (if Status_beq randomStatus Departed
             then n <- random_below 600 ;; ret (n + 300)
             else ret 0) ;;
  gate_ <- random_below 50 ;;
  term <- random_below 5 ;;
  c1 <- random_coord ;;
  c2 <- random_coord ;;
  c3 <- random_coord ;;
  ret (mkFlight
         (JsString.substr 2 9 (toString36 rid))
         (JsString.toUpperCase (JsString.substr 0 3 airline)
            ++ JsString.of_integer (num + 100))%string
         origin_
         destination_
         randomStatus
         isDelayed_
         (toLocaleTimeString estimatedArrival_)
         (toLocaleTimeString actualDeparture_)
         aircraftType_
         altitude_
         speed_
         (gate_ + 1)
         (JsString.fromCharCode (65 + term))
         [c1; c2; c3]).

(** [Array.from({ length: 50 }, generateMockFlight)], the initial
    state. *)
Definition initialFlights : M (list Flight) :=
  replicateM 50 generateMockFlight.

End Generator.

(* ================================================================= *)
(** ** Label wrapping *)

(** A chart label: a string, or the array of lines of a wrapped one. *)
Inductive Label : Type :=
| Str (s : string)
| Arr (lines : list string).

Definition maxLength : nat := 16.

(** [currentLine + (currentLine ? ' ' : '') + word] *)
Definition extend (currentLine word : string) : string :=
  (currentLine
     ++ (if JsString.truthy currentLine then " " else "")
     ++ word)%string.

(** [if (currentLine) lines.push(currentLine.trim())] *)
Definition push_line (lines : list string) (currentLine : string)
  : list string :=
  if JsString.truthy currentLine
  then lines ++ [JsString.trim currentLine]
  else lines.

(** One turn of the loop over the words, on [(lines, currentLine)]. *)
Definition wrap_step (st : list string * string) (word : string)
  : list string * string :=
  let (lines, currentLine) := st in
  if (maxLength <? String.length (extend currentLine word))%nat
  then (push_line lines currentLine, word)
  else (lines, extend currentLine word).

Definition wrapLabel (label : Label) : Label :=
  match label with
  | Arr _ => label
  | Str s =>
      if (String.length s <=? maxLength)%nat then label
      else
        let words := JsString.split " " s in
        let (lines, currentLine) :=
          fold_left wrap_step words ([], EmptyString) in
        Arr (push_line lines currentLine)
  end.

(** The lines a label is drawn on. *)
Definition lines_of (label : Label) : list string :=
  match label with
  | Str s => [s]
  | Arr lines => lines
  end.

(** A string without the separator of words. *)
Fixpoint free_of_space (s : string) : bool :=
  match s with
  | EmptyString => true
  | String c t => negb (Ascii.eqb c " ") && free_of_space t
  end.

(** A line within the width, or a single word that is wider. *)
Definition line_fits (line : string) : Prop :=
  (String.length line <= maxLength)%nat \/ free_of_space line = true.

Definition first_word (line : string) : string :=
  hd EmptyString (JsString.split " " line).

(** Greedy packing: a line ends only where the first word of the next
    line would have made it wider than the width. *)
Fixpoint greedy_breaks (lines : list string) : Prop :=
  match lines with
  | line :: (next :: _) as rest =>
      (maxLength
         < String.length (line ++ " " ++ first_word next)%string)%nat /\
      greedy_breaks rest
  | _ => True
  end.

(** The line, not yet trimmed, that a run of consecutive words makes:
    the current line after the loop has taken the words in turn. *)
Definition render (group : list string) : string :=
  fold_left extend group EmptyString.

(** The lines pushed for a list of untrimmed lines: the empty ones are
    skipped, the others trimmed. *)
Definition printed (raw : list string) : list string :=
  map JsString.trim (filter JsString.truthy raw).

(** [R] holds between each element and the next. *)
Fixpoint adjacent {A : Type} (R : A -> A -> Prop) (l : list A) : Prop :=
  match l with
  | a :: (b :: _) as rest => R a b /\ adjacent R rest
  | _ => True
  end.

(** A run of words that fits the width, or is one word on its own. *)
Definition fits_width (group : list string) : Prop :=
  (String.length (render group) <= maxLength)%nat \/
  exists w, group = [w].

(** The line of [group] could not have taken the first word of the next
    line. *)
Definition breaks_late (group next : list string) : Prop :=
  (maxLength
     < String.length (extend (render group) (hd EmptyString next)))%nat.

(** A string that neither starts nor ends with white space (and is not
    empty). *)
Definition starts_solid (u : string) : Prop :=
  match u with
  | EmptyString => False
  | String c _ => JsString.is_space c = false
  end.

Fixpoint ends_solid (u : string) : Prop :=
  match u with
  | EmptyString => False
  | String c t =>
      match t with
      | EmptyString => JsString.is_space c = false
      | String _ _ => ends_solid t
      end
  end.

Definition solid (u : string) : Prop := starts_solid u /\ ends_solid u.

(** A label whose words are separated by single spaces and have no white
    space at their ends. *)
Definition tidy (s : string) : bool :=
  forallb (fun w => JsString.truthy w && String.eqb (JsString.trim w) w)
          (JsString.split " " s).

(* ================================================================= *)
(** ** Chart data *)

Definition primaryCyan : string := "#00BCD4".
Definition accentRed : string := "#F44336".
Definition accentAmber : string := "#FFC107".
Definition accentGreen : string := "#4CAF50".

(** [acc[k] = (acc[k] || 0) + 1] *)
Definition count_up {K : Type} (eqb : K -> K -> bool) (k : K)
  (acc : JsObject.obj) : JsObject.obj :=
  JsObject.set eqb k (JsObject.or_zero (JsObject.get eqb k acc) + 1) acc.

(** The counter object after counting the keys [ks] into [acc]. *)
Definition tally {K : Type} (eqb : K -> K -> bool) (ks : list K)
  (acc : JsObject.obj) : JsObject.obj :=
  fold_left (fun acc k => count_up eqb k acc) ks acc.

Definition total (counts : list Z) : Z := fold_right Z.add 0 counts.

Definition statusCounts (flights : list Flight)
  : list (Status * Z) :=
  fold_left (fun acc flight => count_up Status_beq (status flight) acc)
            flights [].

Definition status_color (s : Status) : string :=
  match s with
  | OnTime => accentAmber
  | Delayed | Cancelled => accentRed
  | Arrived => accentGreen
  | Departed => primaryCyan
  end.

Record StatusData : Type := mkStatusData {
  status_labels : list Label;
  status_data : list Z;
  status_colors : list string
}.

Definition getFlightStatusData (flights : list Flight) : StatusData :=
  let counts := statusCounts flights in
  mkStatusData
    (map (fun k => wrapLabel (Str (status_label k))) (JsObject.keys counts))
    (JsObject.values counts)
    (map status_color (JsObject.keys counts)).

(** The airport codes of the records, origin before destination. *)
Definition movements (flights : list Flight) : list Airport :=
  flat_map (fun f => [origin f; destination f]) flights.

Definition airportCounts (flights : list Flight)
  : list (Airport * Z) :=
  fold_left
    (fun acc flight =>
       count_up Airport_beq (destination flight)
         (count_up Airport_beq (origin flight) acc))
    flights [].

(** [Object.entries(airportCounts).sort(...).slice(0, n)]; the program
    takes [n = 5]. *)
Definition topAirports (n : Z) (flights : list Flight)
  : list (Airport * Z) :=
  JsArray.slice 0 (Some n)
    (JsArray.sort (fun a b => snd b - snd a)
       (JsObject.entries (airportCounts flights))).

Definition sortedAirports : list Flight -> list (Airport * Z) :=
  topAirports 5.

Record AirportData : Type := mkAirportData {
  airport_labels : list Label;
  airport_data : list Z
}.

Definition getTopAirportsData (flights : list Flight) : AirportData :=
  let sorted := sortedAirports flights in
  mkAirportData
    (map (fun e => wrapLabel (Str (airport_code (fst e)))) sorted)
    (map snd sorted).

(* ================================================================= *)
(** ** The refresh step *)

Definition Qltb (x y : Q) : bool := negb (Qle_bool y x).

(** The doubles that the literals [0.1], [0.2] and [0.9] denote; a
    comparison of doubles is the comparison of their exact values. *)
Definition double_0_1 : Q := 3602879701896397 # 36028797018963968.
Definition double_0_2 : Q := 3602879701896397 # 18014398509481984.
Definition double_0_9 : Q := 8106479329266893 # 9007199254740992.

(** The callback of [prevFlights.map]. *)
Definition tick_update (f : Flight) : M Flight :=
  rand <- Math_random ;;
  if Qltb rand double_0_1 && Status_beq (status f) OnTime then
    n <- random_below 60 ;; ret (with_delay f (n + 10))
  else if Qltb double_0_9 rand && Status_beq (status f) Departed then
    ret (with_arrival f)
  else ret f.

Section Tick.
Context `{Host}.

(** [newFlights.push(generateMockFlight())] under [Math.random() < 0.2] *)
Definition tick_append (newFlights : list Flight) : M (list Flight) :=
  r <- Math_random ;;
  if Qltb r double_0_2 then
    f <- generateMockFlight ;; ret (newFlights ++ [f])
  else ret newFlights.

(** [newFlights] once the map and the occasional push are done. *)
Definition tick_grown (prevFlights : list Flight) : M (list Flight) :=
  newFlights <- mapM tick_update prevFlights ;;
  tick_append newFlights.

(** The state update of one timer tick. *)
Definition tick (prevFlights : list Flight) : M (list Flight) :=
  newFlights <- tick_grown prevFlights ;;
  ret (JsArray.slice (-50) None newFlights).

(** The states of the feed: the initial one and those a tick makes. *)
Inductive reachable : list Flight -> Prop :=
| reach_init (w : World) : reachable (fst (initialFlights w))
| reach_tick (flights : list Flight) (w : World) :
    reachable flights -> reachable (fst (tick flights w)).

(** A run of ticks from any state, each in a world of its own. *)
Fixpoint run (flights : list Flight) (ws : list World) : list Flight :=
  match ws with
  | [] => flights
  | w :: ws' => run (fst (tick flights w)) ws'
  end.

End Tick.

(** Altitude and speed are set only on a departed flight. *)
Definition grounded (f : Flight) : Prop :=
  status f <> Departed -> altitude f = 0 /\ speed f = 0.

(** A delay is recorded only on a delayed flight. *)
Definition delay_marked (f : Flight) : Prop :=
  0 < isDelayed f -> status f = Delayed.

(** The fields no tick writes. *)
Definition same_frame (f g : Flight) : Prop :=
  id g = id f /\ flightNumber g = flightNumber f /\
  origin g = origin f /\ destination g = destination f /\
  estimatedArrival g = estimatedArrival f /\
  actualDeparture g = actualDeparture f /\
  aircraftType g = aircraftType f /\ gate g = gate f /\
  terminal g = terminal f /\ routeCoords g = routeCoords f.

(** What a tick may do to one record, as the specification words it. *)
Inductive transition (f : Flight) : Flight -> Prop :=
| to_delayed (d : Z) :
    status f = OnTime -> 10 <= d < 70 -> transition f (with_delay f d)
| to_arrived :
    status f = Departed -> transition f (with_arrival f)
| unchanged : transition f f.

(** The three shapes a record can have after the map callback, whatever
    the draws. *)
Inductive outcome (f : Flight) : Flight -> Prop :=
| out_delayed (d : Z) : status f = OnTime -> outcome f (with_delay f d)
| out_arrived : status f = Departed -> outcome f (with_arrival f)
| out_same : outcome f f.




(* ================================================================= *)
(** ** Search *)

Definition field_matches (field searchTerm : string) : bool :=
  JsString.includes (JsString.toLowerCase field)
                    (JsString.toLowerCase searchTerm).

Definition matches (searchTerm : string) (flight : Flight) : bool :=
  field_matches (flightNumber flight) searchTerm ||
  field_matches (airport_code (origin flight)) searchTerm ||
  field_matches (airport_code (destination flight)) searchTerm ||
  field_matches (status_label (status flight)) searchTerm.

Definition filteredFlights (flights : list Flight) (searchTerm : string)
  : list Flight :=
  filter (matches searchTerm) flights.

(** Case-insensitive containment as the specification words it: [q]
    is, letter for letter and up to case, a stretch of [s]. *)
Definition same_letter (c d : ascii) : Prop :=
  c = d \/
  (JsString.has_lower (N_of_ascii c) = true /\
   N_of_ascii d = (N_of_ascii c + 32)%N) \/
  (JsString.has_lower (N_of_ascii d) = true /\
   N_of_ascii c = (N_of_ascii d + 32)%N).

Inductive same_text : string -> string -> Prop :=
| same_empty : same_text EmptyString EmptyString
| same_cons (c d : ascii) (s t : string) :
    same_letter c d -> same_text s t ->
    same_text (String c s) (String d t).

Definition ci_substring (q s : string) : Prop :=
  exists pre mid post : string,
    s = (pre ++ mid ++ post)%string /\ same_text mid q.

(* ================================================================= *)
(** ** Sample values *)

#[local] Instance sample_host : Host := {
  toLocaleTimeString := fun t =>
    let m := (t / 60000) mod 1440 in
    (JsString.of_integer (m / 60) ++ ":" ++ JsString.of_integer (m mod 60))%string;
  toString36 := fun _ => "0.k2j9x4m1qz7"%string
}.

Definition sample_flight (s : Status) (delay alt spd : Z) : Flight :=
  mkFlight "k2j9x4m1q" "ABC123" JFK LHR s delay "10:15" "08:40"
           "Boeing 747" alt spd 12 "B" [].

Definition sample_world : World :=
  world_of [1 # 20; 1 # 2; 19 # 20; 3 # 10; 1 # 20; 7 # 10] (1 # 2)
           1700000000000.

(* ================================================================= *)
(** ** The hourly chart *)

Record HourData : Type := mkHourData {
  hour_labels : list string;
  hour_data : list Z
}.

(** The indices [0 .. n-1] that a callback of [map] or [Array.from]
    receives as its second argument. *)
Definition indices (n : nat) : list Z := map Z.of_nat (seq 0 n).

Section Hourly.
(** [Date.prototype.getHours]: the hour of a time value in the host's
    time zone. *)
Variable getHours : Z -> Z.

Definition getFlightsPerHourData : M HourData :=
  now <- Date_now ;;
  let hours :=
    rev (map (fun i =>
                (JsString.of_integer (getHours (now - i * 3600000))
                   ++ ":00")%string)
             (indices 6)) in
  counts <- mapM (fun i => n <- random_below 20 ;; ret (n + i * 5))
                 (indices (List.length hours)) ;;
  ret (mkHourData hours counts).

End Hourly.

(* ================================================================= *)
(** ** Tooltips *)

(** [Array.isArray(label) ? label.join(' ') : label] *)
Definition title_of (label : Label) : string :=
  match label with
  | Arr lines => String.concat " " lines
  | Str s => s
  end.

(** The [title] callback for the hovered item: the label at its data
    index, [None] for the [undefined] of an index outside the labels. *)
Definition tooltip_title (labels : list Label) (dataIndex : nat)
  : option string :=
  option_map title_of (nth_error labels dataIndex).

(* ================================================================= *)
(** ** Key figures *)




(* ================================================================= *)
(** ** The detail modal *)

Definition getStatusColor (s : Status) : string :=
  match s with
  | OnTime => "text-yellow-600"
  | Delayed | Cancelled => "text-red-600"
  | Arrived => "text-green-600"
  | Departed => "text-cyan-600"
  end.

(** [(idx / (length - 1)) * 90]; [None] stands for the [NaN] or
    [Infinity] of a division by zero. *)
Definition marker_left (len : nat) (idx : Z) : option Q :=
  let d := Z.of_nat len - 1 in
  if d =? 0 then None else Some (inject_Z idx / inject_Z d * 90)%Q.

(** The texts of the modal. *)
Record ModalView : Type := mkModalView {
  mv_title : string;
  mv_from : string;
  mv_to : string;
  mv_status : string;
  mv_status_class : string;
  mv_delay_note : option string;
  mv_aircraft : string;
  mv_departure : string;
  mv_arrival : string;
  mv_gate : string;
  mv_altitude : string;
  mv_speed : string;
  mv_markers : list (option Q)
}.

Definition FlightDetailModal (flight : option Flight) : option ModalView :=
  match flight with
  | None => None
  | Some f =>
      Some (mkModalView
        ("Flight Details: " ++ flightNumber f)%string
        (airport_code (origin f))
        (airport_code (destination f))
        (status_label (status f))
        (getStatusColor (status f) ++ " font-semibold")%string
        (if (0 <? isDelayed f) && Status_beq (status f) Delayed
         then Some ("(" ++ JsString.of_integer (isDelayed f)
                        ++ " min delay)")%string
         else None)
        (aircraftType f)
        (actualDeparture f)
        (estimatedArrival f)
        (JsString.of_integer (gate f) ++ " (" ++ terminal f ++ ")")%string
        (if 0 <? altitude f
         then (JsString.of_integer (altitude f) ++ " ft")%string
         else "N/A"%string)
        (if 0 <? speed f
         then (JsString.of_integer (speed f) ++ " mph")%string
         else "N/A"%string)
        (map (marker_left (List.length (routeCoords f)))
             (indices (List.length (routeCoords f)))))
  end.

(** The state behind the modal and its two handlers. *)
Record Ui : Type := mkUi {
  selectedFlight : option Flight;
  isModalOpen : bool
}.

Definition initialUi : Ui := mkUi None false.

Definition openModal (flight : Flight) (ui : Ui) : Ui :=
  mkUi (Some flight) true.

Definition closeModal (ui : Ui) : Ui := mkUi None false.

Inductive UiEvent : Type :=
| Details (flight : Flight)   (* the Details button of a row *)
| Close.                      (* either close button of the modal *)

Definition handle (ui : Ui) (e : UiEvent) : Ui :=
  match e with
  | Details flight => openModal flight ui
  | Close => closeModal ui
  end.

(** [isModalOpen && <FlightDetailModal flight={selectedFlight} />] *)
Definition modal (ui : Ui) : option ModalView :=
  if isModalOpen ui then FlightDetailModal (selectedFlight ui) else None.

(* ================================================================= *)
(** ** Vocabulary of the further properties *)

(** [m], run in a world whose draws lie in [0, 1), returns a value
    satisfying [post] and leaves such a world. *)
Definition yields {A : Type} (m : M A) (post : A -> Prop) : Prop :=
  forall w, unit_world w ->
    post (fst (m w)) /\ unit_world (snd (m w)).

(** The ranges of the fields the generator draws. *)
Definition in_range (f : Flight) : Prop :=
  (status f = Delayed -> 10 <= isDelayed f < 130) /\
  (status f <> Delayed -> isDelayed f = 0) /\
  (status f = Departed ->
     0 <= altitude f < 40000 /\ 300 <= speed f < 900) /\
  (status f <> Departed -> altitude f = 0 /\ speed f = 0) /\
  1 <= gate f <= 50 /\
  In (terminal f) ["A"; "B"; "C"; "D"; "E"]%string /\
  In (aircraftType f) aircraftTypes /\
  List.length (routeCoords f) = 3%nat /\
  Forall (fun c => (-90 <= lat c)%Q /\ (lat c < 90)%Q /\
                   (-180 <= lon c)%Q /\ (lon c < 180)%Q)
         (routeCoords f).

(** The three-letter airline prefixes of generated flight numbers. *)
Definition prefixes : list string := ["SKY"; "GLO"; "OCE"; "STA"; "CON"]%string.

(** The shape of a generated flight number. *)
Definition numbered (f : Flight) : Prop :=
  String.length (flightNumber f) = 6%nat /\
  exists p n, In p prefixes /\ 100 <= n <= 999 /\
    flightNumber f = (p ++ JsString.of_integer n)%string.

Section UnitFeed.
Context `{Host}.

(** The states of a feed all of whose draws lie in [0, 1). *)
Inductive reachable_unit : list Flight -> Prop :=
| reach_unit_init (w : World) :
    unit_world w -> reachable_unit (fst (initialFlights w))
| reach_unit_tick (flights : list Flight) (w : World) :
    unit_world w -> reachable_unit flights ->
    reachable_unit (fst (tick flights w)).

End UnitFeed.

(** The keys of a list in the order of their first occurrence. *)
Fixpoint first_seen {K : Type} (eqb : K -> K -> bool) (ks : list K)
  : list K :=
  match ks with
  | [] => []
  | k :: t => k :: filter (fun x => negb (eqb x k)) (first_seen eqb t)
  end.

(* ================================================================= *)
(** * Properties *)

(** ** Running monadic code *)

Lemma run_bind {A B : Type} (m : M A) (k : A -> M B) (w : World) :
  bind m k w = k (fst (m w)) (snd (m w)).
Proof. unfold bind. destruct (m w); reflexivity. Qed.


Lemma mapM_cons {A B : Type} (f : A -> M B) (x : A) (t : list A) (w : World) :
  fst (mapM f (x :: t) w) = fst (f x w) :: fst (mapM f t (snd (f x w))).
Proof. simpl. rewrite !run_bind. reflexivity. Qed.

Lemma mapM_length {A B : Type} (f : A -> M B) (l : list A) :
  forall w, List.length (fst (mapM f l w)) = List.length l.
Proof.
  induction l as [|x t IH]; intros w.
  - reflexivity.
  - rewrite mapM_cons. simpl. now rewrite IH.
Qed.

(** What [f] establishes for each element in a world satisfying an
    invariant it preserves, [mapM f] establishes pointwise. *)
Lemma mapM_Forall2 {A B : Type} (f : A -> M B) (Inv : World -> Prop)
  (R : A -> B -> Prop) :
  (forall x w, Inv w -> R x (fst (f x w)) /\ Inv (snd (f x w))) ->
  forall l w, Inv w -> Forall2 R l (fst (mapM f l w)).
Proof.
  intros Hf l. induction l as [|x t IH]; intros w Hw.
  - constructor.
  - rewrite mapM_cons. destruct (Hf x w Hw) as [Hx Hw'].
    constructor; [exact Hx | now apply IH].
Qed.

Lemma replicateM_Forall {A : Type} (m : M A) (P : A -> Prop) :
  (forall w, P (fst (m w))) ->
  forall n w, Forall P (fst (replicateM n m w)).
Proof.
  intros Hm n. induction n as [|n IH]; intros w; simpl.
  - constructor.
  - rewrite !run_bind. simpl. constructor; [apply Hm | apply IH].
Qed.

(** ** Draws *)

Lemma unit_world_random (w : World) :
  unit_world w ->
  unit_draw (fst (Math_random w)) /\ unit_world (snd (Math_random w)).
Proof.
  intros Hw. split; [apply Hw | intros n; apply Hw].
Qed.

Lemma floor_draw_range (r : Q) (n : Z) :
  unit_draw r -> 0 < n -> 0 <= Math_floor (r * inject_Z n) < n.
Proof.
  intros [H0 H1] Hn. unfold Math_floor. split.
  - change 0 with (Qfloor 0). apply Qfloor_resp_le.
    apply Qmult_le_0_compat; [exact H0 |].
    change 0%Q with (inject_Z 0). rewrite <- Zle_Qle. lia.
  - rewrite Zlt_Qlt.
    apply Qle_lt_trans with (r * inject_Z n)%Q; [apply Qfloor_le |].
    rewrite <- (Qmult_1_l (inject_Z n)) at 2.
    apply Qmult_lt_compat_r; [| exact H1].
    change 0%Q with (inject_Z 0). rewrite <- Zlt_Qlt. exact Hn.
Qed.

Lemma world_of_unit (draws : list Q) (rest : Q) (now : Z) :
  Forall unit_draw (rest :: draws) -> unit_world (world_of draws rest now).
Proof.
  intros HF n. simpl.
  inversion HF as [|? ? Hrest Hdraws]; subst.
  destruct (Nat.lt_ge_cases n (List.length draws)) as [Hlt | Hge].
  - rewrite Forall_forall in Hdraws. apply Hdraws. now apply nth_In.
  - now rewrite nth_overflow.
Qed.


(** ** Slices *)

Lemma slice_last {A : Type} (n : nat) (l : list A) :
  (0 < n)%nat ->
  JsArray.slice (- Z.of_nat n) None l = skipn (List.length l - n) l.
Proof.
  intros Hn. unfold JsArray.slice, JsArray.relIndex.
  destruct (Z.ltb_spec (- Z.of_nat n) 0) as [_ | Hge]; [| lia].
  replace (Z.to_nat (Z.max (Z.of_nat (List.length l) + - Z.of_nat n) 0))
    with (List.length l - n)%nat by lia.
  apply firstn_all2. rewrite length_skipn. lia.
Qed.

Lemma slice_first {A : Type} (n : Z) (l : list A) :
  0 <= n -> JsArray.slice 0 (Some n) l = firstn (Z.to_nat n) l.
Proof.
  intros Hn. unfold JsArray.slice, JsArray.relIndex. simpl.
  destruct (Z.ltb_spec n 0) as [Hlt | _]; [lia |].
  rewrite !(Z.min_l 0) by lia. rewrite Z.sub_0_r. simpl.
  destruct (Z.min_spec n (Z.of_nat (List.length l))) as [[Hc ->] | [Hc ->]].
  - reflexivity.
  - rewrite Nat2Z.id, !firstn_all2; [reflexivity | lia | lia].
Qed.

(** ** Lists *)

Lemma Forall_drop {A : Type} (P : A -> Prop) (n : nat) (l : list A) :
  Forall P l -> Forall P (skipn n l).
Proof.
  revert l. induction n as [|n IH]; intros l Hl; [exact Hl |].
  destruct l as [|x t]; [constructor |].
  simpl. apply IH. now inversion Hl.
Qed.

Lemma Forall2_same_length {A B : Type} (R : A -> B -> Prop) l l' :
  Forall2 R l l' -> List.length l = List.length l'.
Proof. induction 1; simpl; congruence. Qed.

Lemma Forall2_drop {A B : Type} (R : A -> B -> Prop) (n : nat) l l' :
  Forall2 R l l' -> Forall2 R (skipn n l) (skipn n l').
Proof.
  intros HR. revert n. induction HR; intros [|n]; simpl; auto.
Qed.

Lemma Forall2_take {A B : Type} (R : A -> B -> Prop) (n : nat) l l' :
  Forall2 R l l' -> Forall2 R (firstn n l) (firstn n l').
Proof.
  intros HR. revert n. induction HR; intros [|n]; simpl; auto.
Qed.

Lemma Forall2_weaken {A B : Type} (R R' : A -> B -> Prop) l l' :
  (forall x y, R x y -> R' x y) -> Forall2 R l l' -> Forall2 R' l l'.
Proof. intros HRR'. induction 1; constructor; auto. Qed.

Lemma Forall2_Forall_r {A B : Type} (R : A -> B -> Prop)
  (P : A -> Prop) (P' : B -> Prop) l l' :
  (forall x y, P x -> R x y -> P' y) ->
  Forall2 R l l' -> Forall P l -> Forall P' l'.
Proof.
  intros HP HR. induction HR; intros Hl; constructor;
    inversion Hl; subst; eauto.
Qed.

Lemma In_take {A : Type} (x : A) (n : nat) (l : list A) :
  In x (firstn n l) -> In x l.
Proof.
  revert l. induction n as [|n IH]; intros [|y t]; simpl; try tauto.
  intros [E | Hin]; auto.
Qed.

Lemma NoDup_map_inj {A B : Type} (f : A -> B) (l : list A) :
  (forall x y, f x = f y -> x = y) -> NoDup l -> NoDup (map f l).
Proof.
  intros Hinj. induction 1 as [|x t Hnotin Hnd IH]; simpl; constructor; auto.
  intros Hin. apply in_map_iff in Hin as (y & E & Hy).
  apply Hinj in E. congruence.
Qed.

(** ** The feed *)

Section FeedProperties.
Context `{Host}.

Lemma tick_update_outcome (f : Flight) (w : World) :
  outcome f (fst (tick_update f w)).
Proof.
  unfold tick_update. rewrite run_bind.
  destruct (Qltb _ _ && Status_beq (status f) OnTime) eqn:E1.
  - apply andb_prop in E1 as [_ E1].
    apply internal_Status_dec_bl in E1.
    rewrite run_bind. simpl. now constructor.
  - destruct (Qltb _ _ && Status_beq (status f) Departed) eqn:E2.
    + apply andb_prop in E2 as [_ E2].
      apply internal_Status_dec_bl in E2. simpl. now constructor.
    + simpl. constructor.
Qed.

Lemma tick_update_unit (f : Flight) (w : World) :
  unit_world w -> unit_world (snd (tick_update f w)).
Proof.
  intros Hw. unfold tick_update. rewrite run_bind.
  destruct (unit_world_random w Hw) as [_ Hw1].
  destruct (_ && _).
  - unfold random_below. rewrite !run_bind. simpl.
    apply (unit_world_random _ Hw1).
  - destruct (_ && _); exact Hw1.
Qed.

Lemma tick_update_transition (f : Flight) (w : World) :
  unit_world w -> transition f (fst (tick_update f w)).
Proof.
  intros Hw. unfold tick_update. rewrite run_bind.
  destruct (unit_world_random w Hw) as [_ Hw1].
  destruct (Qltb _ _ && Status_beq (status f) OnTime) eqn:E1.
  - apply andb_prop in E1 as [_ E1].
    apply internal_Status_dec_bl in E1.
    unfold random_below. rewrite !run_bind. simpl.
    constructor; [exact E1 |].
    pose proof (floor_draw_range _ 60 (Hw1 0%nat) eq_refl) as Hr.
    simpl in Hr. lia.
  - destruct (Qltb _ _ && Status_beq (status f) Departed) eqn:E2.
    + apply andb_prop in E2 as [_ E2].
      apply internal_Status_dec_bl in E2. simpl. now constructor.
    + simpl. constructor.
Qed.

(** The callback on the first two draws of its world. *)
Lemma tick_update_eval (f : Flight) (w : World) :
  fst (tick_update f w) =
    if Qltb (randoms w 0%nat) double_0_1 && Status_beq (status f) OnTime
    then with_delay f (Math_floor (randoms w 1%nat * inject_Z 60) + 10)
    else if Qltb double_0_9 (randoms w 0%nat)
            && Status_beq (status f) Departed
         then with_arrival f
         else f.
Proof.
  unfold tick_update. rewrite run_bind.
  change (fst (Math_random w)) with (randoms w 0%nat).
  destruct (_ && _).
  - unfold random_below. rewrite !run_bind. reflexivity.
  - destruct (_ && _); reflexivity.
Qed.




Lemma outcome_frame (f g : Flight) : outcome f g -> same_frame f g.
Proof. intros []; unfold same_frame; simpl; tauto. Qed.

Lemma outcome_grounded (f g : Flight) :
  grounded f -> outcome f g -> grounded g.
Proof.
  unfold grounded. intros Hf []; simpl; auto.
  intros _. apply Hf. congruence.
Qed.

Lemma outcome_delay_marked (f g : Flight) :
  delay_marked f -> outcome f g -> delay_marked g.
Proof.
  unfold delay_marked. intros Hf []; simpl; auto.
  intros Hd. apply Hf in Hd. congruence.
Qed.

Lemma mapped_outcomes (prevFlights : list Flight) (w : World) :
  Forall2 outcome prevFlights (fst (mapM tick_update prevFlights w)).
Proof.
  apply (mapM_Forall2 tick_update (fun _ => True)); [| exact I].
  intros x w' _. split; [apply tick_update_outcome | exact I].
Qed.

(** The grown sequence is the mapped one, followed by at most one
    freshly generated record. *)
Lemma tick_grown_split (prevFlights : list Flight) (w : World) :
  exists appended,
    fst (tick_grown prevFlights w)
      = fst (mapM tick_update prevFlights w) ++ appended /\
    (appended = [] \/
     exists w', appended = [fst (generateMockFlight w')]).
Proof.
  unfold tick_grown, tick_append. rewrite !run_bind.
  destruct (Qltb _ _).
  - rewrite run_bind. simpl. eexists. split; [reflexivity |].
    right. eexists. reflexivity.
  - simpl. exists []. rewrite app_nil_r. auto.
Qed.

Lemma tick_kept (prevFlights : list Flight) (w : World) :
  fst (tick prevFlights w)
    = skipn (List.length (fst (tick_grown prevFlights w)) - 50)
            (fst (tick_grown prevFlights w)).
Proof.
  unfold tick. rewrite run_bind. simpl fst.
  apply (slice_last 50). lia.
Qed.

Lemma generated_fields (w : World) :
  let f := fst (generateMockFlight w) in
  (status f <> Departed -> altitude f = 0 /\ speed f = 0) /\
  (status f <> Delayed -> isDelayed f = 0).
Proof.
  unfold generateMockFlight.
  repeat (rewrite run_bind; cbv beta).
  cbn [fst ret altitude speed status isDelayed].
  destruct (fst (pick statuses Cancelled w));
    cbn [Status_beq fst ret]; split; congruence || auto.
Qed.

(** A property of single records that generation establishes and the
    map callback preserves holds in every state of the feed. *)
Lemma reachable_Forall (P : Flight -> Prop) :
  (forall w, P (fst (generateMockFlight w))) ->
  (forall f g, P f -> outcome f g -> P g) ->
  forall flights, reachable flights -> Forall P flights.
Proof.
  intros Hgen Hstep flights Hr.
  induction Hr as [w | flights w Hr IH].
  - apply replicateM_Forall. exact Hgen.
  - rewrite tick_kept. apply Forall_drop.
    destruct (tick_grown_split flights w) as (app & -> & Happ).
    apply Forall_app. split.
    + apply (Forall2_Forall_r outcome P P flights); auto.
      apply mapped_outcomes.
    + destruct Happ as [-> | [w' ->]]; repeat constructor. apply Hgen.
Qed.

End FeedProperties.

(** ** Capacity, truncation and frame of a tick *)

Section TickProperties.
Context `{Host}.

Lemma tick_length (flights : list Flight) (w : World) :
  (List.length (fst (tick flights w)) <= 50)%nat.
Proof. rewrite tick_kept, length_skipn. lia. Qed.

(** C1. From any finite sequence of flight records, after one tick and
    after any number of further ticks, the sequence holds at most 50
    records. *)
Theorem tick_capacity (flights : list Flight) (w : World)
  (ws : list World) :
  (List.length (run flights (w :: ws)) <= 50)%nat.
Proof.
  revert flights w. induction ws as [|w' ws IH]; intros flights w.
  - simpl. apply tick_length.
  - change (run flights (w :: w' :: ws))
      with (run (fst (tick flights w)) (w' :: ws)).
    apply IH.
Qed.

(** C4. The sequence a tick keeps is the grown sequence without a
    prefix: what truncation drops are the first
    [length newFlights - 50] records, which are the records at the
    front of the previous state, and nothing else. *)
Theorem tick_drops_oldest (prevFlights : list Flight) (w : World) :
  let newFlights := fst (tick_grown prevFlights w) in
  let kept := fst (tick prevFlights w) in
  exists dropped,
    newFlights = dropped ++ kept /\
    List.length dropped = (List.length newFlights - 50)%nat /\
    Forall2 same_frame (firstn (List.length dropped) prevFlights) dropped.
Proof.
  cbv zeta. rewrite tick_kept.
  set (newFlights := fst (tick_grown prevFlights w)).
  set (k := (List.length newFlights - 50)%nat).
  exists (firstn k newFlights).
  assert (Hk : List.length (firstn k newFlights) = k).
  { rewrite length_firstn. lia. }
  split; [now rewrite firstn_skipn |]. split; [exact Hk |].
  rewrite Hk. subst newFlights.
  destruct (tick_grown_split prevFlights w) as (app & E & Happ).
  pose proof (mapped_outcomes prevFlights w) as HO.
  pose proof (Forall2_same_length _ _ _ HO) as HL.
  assert (Hle : (k <= List.length (fst (mapM tick_update prevFlights w)))%nat).
  { subst k. rewrite E, length_app.
    destruct Happ as [-> | [w' ->]]; simpl; lia. }
  rewrite E, firstn_app.
  replace (k - List.length (fst (mapM tick_update prevFlights w)))%nat
    with 0%nat by lia.
  rewrite firstn_O, app_nil_r.
  apply Forall2_take.
  apply (Forall2_weaken outcome); [apply outcome_frame | exact HO].
Qed.

(** C10. The records a tick keeps are the records of a suffix of the
    previous state, one for one and in the same order, each with the
    same id, flightNumber, origin, destination, estimatedArrival,
    actualDeparture, aircraftType, gate, terminal and routeCoords,
    followed by at most one new record; the suffix starts where the
    truncation to 50 records cuts. *)
Theorem tick_frame (prevFlights : list Flight) (w : World) :
  exists (k : nat) (survivors appended : list Flight),
    fst (tick prevFlights w) = survivors ++ appended /\
    (List.length appended <= 1)%nat /\
    k = (List.length prevFlights + List.length appended - 50)%nat /\
    Forall2 same_frame (skipn k prevFlights) survivors.
Proof.
  rewrite tick_kept.
  destruct (tick_grown_split prevFlights w) as (app & E & Happ).
  pose proof (mapped_outcomes prevFlights w) as HO.
  set (mapped := fst (mapM tick_update prevFlights w)) in *.
  rewrite E. set (k := (List.length (mapped ++ app) - 50)%nat).
  assert (Hle : (k <= List.length mapped)%nat).
  { subst k. rewrite length_app.
    destruct Happ as [-> | [w' ->]]; simpl; lia. }
  exists k, (skipn k mapped), app. split; [| split; [| split]].
  - rewrite skipn_app.
    replace (k - List.length mapped)%nat with 0%nat by lia.
    reflexivity.
  - destruct Happ as [-> | [w' ->]]; simpl; lia.
  - subst k. rewrite length_app.
    now rewrite (Forall2_same_length _ _ _ HO).
  - apply Forall2_drop.
    apply (Forall2_weaken outcome); [apply outcome_frame | exact HO].
Qed.


(** C3. In every state of the feed, the initial one and the one after
    each tick, a record whose status is not Departed has altitude 0 and
    speed 0. *)
Theorem not_departed_grounded (flights : list Flight) :
  reachable flights -> Forall grounded flights.
Proof.
  apply reachable_Forall.
  - intros w. exact (proj1 (generated_fields w)).
  - apply outcome_grounded.
Qed.

(** C5. In every state of the feed, the initial one and the one after
    each tick, a record with a positive delay has status Delayed. *)
Theorem delay_only_delayed (flights : list Flight) :
  reachable flights -> Forall delay_marked flights.
Proof.
  apply reachable_Forall.
  - intros w Hpos.
    destruct (Status_eq_dec (status (fst (generateMockFlight w))) Delayed)
      as [E | NE]; [exact E |].
    apply (proj2 (generated_fields w)) in NE. lia.
  - apply outcome_delay_marked.
Qed.

End TickProperties.

(** ** The properties at sample values *)

Ltac unit_draws :=
  apply world_of_unit;
  repeat (constructor; [split; [discriminate | reflexivity] |]);
  constructor.

Lemma sample_world_unit : unit_world sample_world.
Proof. unit_draws. Defined.


Lemma not_departed_grounded_witness :
  reachable (fst (tick (fst (initialFlights sample_world)) sample_world)) /\
  Forall grounded
    (fst (tick (fst (initialFlights sample_world)) sample_world)).
Proof.
  split; [apply reach_tick, reach_init |].
  apply not_departed_grounded. apply reach_tick, reach_init.
Defined.

Lemma delay_only_delayed_witness :
  reachable (fst (tick (fst (initialFlights sample_world)) sample_world)) /\
  Forall delay_marked
    (fst (tick (fst (initialFlights sample_world)) sample_world)).
Proof.
  split; [apply reach_tick, reach_init |].
  apply delay_only_delayed. apply reach_tick, reach_init.
Defined.

(** One tick on three records: the first is delayed by 40 minutes, the
    second arrives, the third is left alone, and a record is appended. *)
Example tick_sample :
  map (fun f => (status f, isDelayed f, altitude f, speed f))
      (fst (tick [sample_flight OnTime 0 0 0;
                  sample_flight Departed 0 31000 520;
                  sample_flight Departed 0 28000 480] sample_world))
  = [(Delayed, 40, 0, 0); (Arrived, 0, 0, 0); (Departed, 0, 28000, 480);
     (Arrived, 0, 0, 0)].
Proof. vm_compute. reflexivity. Qed.

(** ** Counter objects *)

Section Counting.
Context {K : Type} (eqb : K -> K -> bool).
Hypothesis eqb_eq : forall a b, eqb a b = true <-> a = b.
Variable dec : forall a b : K, {a = b} + {a <> b}.

Lemma eqb_reflect (a b : K) : reflect (a = b) (eqb a b).
Proof. apply iff_reflect. symmetry. apply eqb_eq. Qed.

Lemma get_set (k k' : K) (v : Z) (o : JsObject.obj) :
  JsObject.get eqb k (JsObject.set eqb k' v o)
  = if eqb k k' then Some v else JsObject.get eqb k o.
Proof.
  induction o as [|[k0 v0] t IH]; simpl.
  - reflexivity.
  - destruct (eqb_reflect k' k0) as [-> | Hne]; simpl.
    + destruct (eqb k k0); reflexivity.
    + destruct (eqb_reflect k k0) as [-> | Hne'].
      * destruct (eqb_reflect k0 k'); congruence.
      * exact IH.
Qed.

Lemma In_keys_set (k k' : K) (v : Z) (o : JsObject.obj) :
  In k (JsObject.keys (JsObject.set eqb k' v o))
  <-> k = k' \/ In k (JsObject.keys o).
Proof.
  unfold JsObject.keys. induction o as [|[k0 v0] t IH]; simpl.
  - intuition congruence.
  - destruct (eqb_reflect k' k0) as [-> | Hne]; simpl.
    + intuition congruence.
    + rewrite IH. intuition congruence.
Qed.

Lemma NoDup_keys_set (k : K) (v : Z) (o : JsObject.obj) :
  NoDup (JsObject.keys o) -> NoDup (JsObject.keys (JsObject.set eqb k v o)).
Proof.
  induction o as [|[k0 v0] t IH]; simpl; intros Hnd.
  - repeat constructor. intros [].
  - inversion Hnd as [|? ? Hnotin Hnd']; subst.
    destruct (eqb_reflect k k0) as [-> | Hne]; simpl.
    + now constructor.
    + constructor; [| now apply IH].
      intros Hin. apply In_keys_set in Hin as [-> | Hin]; congruence.
Qed.

Lemma total_values_set (k : K) (v : Z) (o : JsObject.obj) :
  total (JsObject.values (JsObject.set eqb k v o))
  = total (JsObject.values o) + v
    - JsObject.or_zero (JsObject.get eqb k o).
Proof.
  induction o as [|[k0 v0] t IH]; simpl.
  - lia.
  - destruct (eqb_reflect k k0) as [-> | Hne]; simpl; [lia |].
    rewrite IH. lia.
Qed.

Lemma get_of_entry (k : K) (v : Z) (o : JsObject.obj) :
  NoDup (JsObject.keys o) -> In (k, v) o -> JsObject.get eqb k o = Some v.
Proof.
  induction o as [|[k0 v0] t IH]; simpl; intros Hnd Hin; [easy |].
  inversion Hnd as [|? ? Hnotin Hnd']; subst.
  destruct Hin as [E | Hin].
  - inversion E; subst. now destruct (eqb_reflect k k).
  - destruct (eqb_reflect k k0) as [-> | Hne]; [| now apply IH].
    exfalso. apply Hnotin. change k0 with (fst (k0, v)). now apply in_map.
Qed.


Lemma tally_cons (k : K) (ks : list K) (acc : JsObject.obj) :
  tally eqb (k :: ks) acc = tally eqb ks (count_up eqb k acc).
Proof. reflexivity. Qed.

Lemma tally_total (ks : list K) (acc : JsObject.obj) :
  total (JsObject.values (tally eqb ks acc))
  = total (JsObject.values acc) + Z.of_nat (List.length ks).
Proof.
  revert acc. induction ks as [|k ks IH]; intros acc.
  - simpl. lia.
  - rewrite tally_cons, IH. unfold count_up.
    rewrite total_values_set. simpl List.length. lia.
Qed.

Lemma tally_NoDup (ks : list K) (acc : JsObject.obj) :
  NoDup (JsObject.keys acc) -> NoDup (JsObject.keys (tally eqb ks acc)).
Proof.
  revert acc. induction ks as [|k ks IH]; intros acc Hnd; [exact Hnd |].
  rewrite tally_cons. apply IH. now apply NoDup_keys_set.
Qed.

Lemma tally_keys (k : K) (ks : list K) (acc : JsObject.obj) :
  In k (JsObject.keys (tally eqb ks acc))
  <-> In k (JsObject.keys acc) \/ In k ks.
Proof.
  revert acc. induction ks as [|k0 ks IH]; intros acc.
  - simpl. tauto.
  - rewrite tally_cons, IH. unfold count_up. rewrite In_keys_set.
    simpl. intuition congruence.
Qed.

Lemma tally_get (k : K) (ks : list K) (acc : JsObject.obj) :
  JsObject.or_zero (JsObject.get eqb k (tally eqb ks acc))
  = JsObject.or_zero (JsObject.get eqb k acc)
    + Z.of_nat (count_occ dec ks k).
Proof.
  revert acc. induction ks as [|k0 ks IH]; intros acc.
  - simpl. lia.
  - rewrite tally_cons, IH. unfold count_up. rewrite get_set. simpl.
    destruct (eqb_reflect k k0) as [-> | Hne].
    + destruct (dec k0 k0); [| congruence]. simpl JsObject.or_zero. lia.
    + destruct (dec k0 k); [congruence | reflexivity].
Qed.

(** Counting from the empty object: each entry carries the number of
    occurrences of its key. *)
Lemma tally_entry (k : K) (v : Z) (ks : list K) :
  In (k, v) (tally eqb ks []) -> v = Z.of_nat (count_occ dec ks k).
Proof.
  intros Hin.
  pose proof (tally_get k ks []) as Hget.
  rewrite (get_of_entry k v) in Hget; [exact Hget | | exact Hin].
  apply tally_NoDup. constructor.
Qed.

Lemma tally_distinct (ks : list K) :
  List.length (tally eqb ks []) = List.length (nodup dec ks).
Proof.
  rewrite <- (length_map fst).
  apply Permutation_length, NoDup_Permutation.
  - apply (tally_NoDup ks []). constructor.
  - apply NoDup_nodup.
  - intros k. rewrite nodup_In.
    rewrite (tally_keys k ks []). simpl. tauto.
Qed.

End Counting.

(** ** Sorting by descending count *)

Section Sorting.
Context {A : Type} (key : A -> Z).

Lemma insert_perm (x : A) (l : list A) :
  Permutation (JsArray.insert (fun a b => key b - key a) x l) (x :: l).
Proof.
  induction l as [|y t IH]; simpl.
  - reflexivity.
  - destruct (key y - key x <=? 0); [reflexivity |].
    rewrite IH. apply perm_swap.
Qed.

Lemma sort_perm (l : list A) :
  Permutation (JsArray.sort (fun a b => key b - key a) l) l.
Proof.
  induction l as [|x t IH]; simpl.
  - constructor.
  - rewrite insert_perm. now constructor.
Qed.

Lemma insert_sorted (x : A) (l : list A) :
  StronglySorted (fun a b => key b <= key a) l ->
  StronglySorted (fun a b => key b <= key a)
                 (JsArray.insert (fun a b => key b - key a) x l).
Proof.
  induction 1 as [|y t Hs IH Hy]; simpl.
  - repeat constructor.
  - destruct (Z.leb_spec (key y - key x) 0) as [Hle | Hgt].
    + constructor; [now constructor |].
      constructor; [lia |].
      eapply Forall_impl; [| exact Hy].
      simpl. intros z Hz. lia.
    + constructor; [exact IH |].
      eapply Permutation_Forall; [symmetry; apply insert_perm |].
      constructor; [lia | exact Hy].
Qed.

Lemma sort_sorted (l : list A) :
  StronglySorted (fun a b => key b <= key a)
                 (JsArray.sort (fun a b => key b - key a) l).
Proof.
  induction l as [|x t IH]; simpl; [constructor | now apply insert_sorted].
Qed.

Lemma take_sorted (R : A -> A -> Prop) (n : nat) (l : list A) :
  StronglySorted R l -> StronglySorted R (firstn n l).
Proof.
  intros Hs. revert n. induction Hs as [|y t Hs IH Hy]; intros [|n]; simpl;
    try constructor; auto.
  apply Forall_forall. intros z Hz. rewrite Forall_forall in Hy.
  apply Hy. eapply In_take. exact Hz.
Qed.

Lemma keys_sorted (l : list A) :
  StronglySorted (fun a b => key b <= key a) l ->
  StronglySorted (fun c c' => c' <= c) (map key l).
Proof.
  induction 1 as [|y t Hs IH Hy]; simpl; constructor; auto.
  apply Forall_map. exact Hy.
Qed.

End Sorting.

(** ** The charts *)

Lemma Status_beq_eq (a b : Status) : Status_beq a b = true <-> a = b.
Proof.
  split; [apply internal_Status_dec_bl | apply internal_Status_dec_lb].
Qed.

Lemma Airport_beq_eq (a b : Airport) : Airport_beq a b = true <-> a = b.
Proof.
  split; [apply internal_Airport_dec_bl | apply internal_Airport_dec_lb].
Qed.

Lemma statusCounts_tally (flights : list Flight) :
  statusCounts flights = tally Status_beq (map status flights) [].
Proof.
  unfold statusCounts, tally. generalize (@nil (Status * Z)).
  induction flights as [|f t IH]; intros acc; simpl; [reflexivity | apply IH].
Qed.

Lemma airportCounts_tally (flights : list Flight) :
  airportCounts flights = tally Airport_beq (movements flights) [].
Proof.
  unfold airportCounts, tally, movements. generalize (@nil (Airport * Z)).
  induction flights as [|f t IH]; intros acc; simpl; [reflexivity | apply IH].
Qed.

Lemma movements_count (a : Airport) (flights : list Flight) :
  count_occ Airport_eq_dec (movements flights) a
  = (count_occ Airport_eq_dec (map origin flights) a
     + count_occ Airport_eq_dec (map destination flights) a)%nat.
Proof.
  induction flights as [|f t IH]; simpl; [reflexivity |].
  destruct (Airport_eq_dec (origin f) a);
    destruct (Airport_eq_dec (destination f) a); simpl; lia.
Qed.

Lemma wrapLabel_status (s : Status) :
  wrapLabel (Str (status_label s)) = Str (status_label s).
Proof. destruct s; reflexivity. Qed.

Lemma wrapLabel_airport (a : Airport) :
  wrapLabel (Str (airport_code a)) = Str (airport_code a).
Proof. destruct a; reflexivity. Qed.

Lemma status_label_inj (s s' : Status) :
  status_label s = status_label s' -> s = s'.
Proof. destruct s, s'; simpl; intros E; congruence || discriminate. Qed.

(** C6. The counts of the status chart add up to the number of records,
    and its labels are the distinct statuses that occur among the
    records, each once and each with the number of its records, which is
    never zero. *)
Theorem status_distribution_counts (flights : list Flight) :
  let chart := getFlightStatusData flights in
  let occurring := map status flights in
  total (status_data chart) = Z.of_nat (List.length flights) /\
  exists present : list Status,
    NoDup present /\
    (forall s, In s present <-> In s occurring) /\
    status_labels chart = map (fun s => Str (status_label s)) present /\
    NoDup (status_labels chart) /\
    status_data chart
      = map (fun s => Z.of_nat (count_occ Status_eq_dec occurring s)) present /\
    Forall (fun c => 0 < c) (status_data chart).
Proof.
  cbv zeta. unfold getFlightStatusData. simpl.
  rewrite statusCounts_tally.
  set (ks := map status flights).
  assert (Hnd : NoDup (JsObject.keys (tally Status_beq ks []))).
  { apply (tally_NoDup Status_beq Status_beq_eq). constructor. }
  assert (Hin : forall s, In s (JsObject.keys (tally Status_beq ks [])) <-> In s ks).
  { intros s. rewrite (tally_keys Status_beq Status_beq_eq). simpl. tauto. }
  assert (Hdata : JsObject.values (tally Status_beq ks [])
                  = map (fun s => Z.of_nat (count_occ Status_eq_dec ks s))
                        (JsObject.keys (tally Status_beq ks []))).
  { unfold JsObject.values, JsObject.keys. rewrite map_map.
    apply map_ext_in. intros [k v] Hkv. simpl.
    now apply (tally_entry Status_beq Status_beq_eq Status_eq_dec). }
  split.
  - rewrite (tally_total Status_beq Status_beq_eq). subst ks.
    rewrite length_map. simpl. lia.
  - exists (JsObject.keys (tally Status_beq ks [])).
    split; [exact Hnd |]. split; [exact Hin |]. split.
    { apply map_ext. intros s. apply wrapLabel_status. }
    split.
    { erewrite map_ext by (intros s; apply wrapLabel_status).
      apply NoDup_map_inj; [| exact Hnd].
      intros s s' E. apply status_label_inj. congruence. }
    split; [exact Hdata |].
    rewrite Hdata. apply Forall_map, Forall_forall. intros s Hs.
    apply Hin, (count_occ_In Status_eq_dec) in Hs. lia.
Qed.

Lemma topAirports_take (n : nat) (flights : list Flight) :
  topAirports (Z.of_nat n) flights
  = firstn n (JsArray.sort (fun a b : Airport * Z => snd b - snd a)
                (tally Airport_beq (movements flights) [])).
Proof.
  unfold topAirports, JsObject.entries.
  rewrite slice_first by lia.
  now rewrite Nat2Z.id, airportCounts_tally.
Qed.

(** C7. The ranking of the [n] busiest airports holds at most [n] pairs
    and at most as many as there are distinct codes among the origins and
    destinations; each pair carries the number of times its code is an
    origin plus the number of times it is a destination; the counts do
    not increase along the ranking.  The airport chart is this ranking
    for [n = 5]. *)
Theorem top_airports_ranked (n : nat) (flights : list Flight) :
  let top := topAirports (Z.of_nat n) flights in
  (List.length top
     <= Nat.min n (List.length (nodup Airport_eq_dec (movements flights))))%nat /\
  (forall a c, In (a, c) top ->
     c = Z.of_nat (count_occ Airport_eq_dec (map origin flights) a
                   + count_occ Airport_eq_dec (map destination flights) a)) /\
  StronglySorted (fun c c' => c' <= c) (map snd top) /\
  getTopAirportsData flights
    = mkAirportData
        (map (fun e => Str (airport_code (fst e))) (topAirports 5 flights))
        (map snd (topAirports 5 flights)).
Proof.
  cbv zeta. rewrite topAirports_take.
  set (counts := tally Airport_beq (movements flights) []).
  set (sorted := JsArray.sort (fun a b : Airport * Z => snd b - snd a) counts).
  assert (Hperm : Permutation sorted counts) by apply (sort_perm snd).
  split; [| split; [| split]].
  - rewrite length_firstn, (Permutation_length Hperm). subst counts.
    rewrite (tally_distinct Airport_beq Airport_beq_eq Airport_eq_dec). lia.
  - intros a c Hin. apply In_take in Hin.
    apply (Permutation_in _ Hperm) in Hin.
    rewrite <- movements_count.
    now apply (tally_entry Airport_beq Airport_beq_eq Airport_eq_dec).
  - apply (keys_sorted snd), take_sorted, (sort_sorted snd).
  - unfold getTopAirportsData, sortedAirports. f_equal.
    apply map_ext. intros e. apply wrapLabel_airport.
Qed.

(** Two flights JFK to LHR and one LHR to DXB. *)
Example top_airports_sample :
  topAirports 2 [sample_flight OnTime 0 0 0; sample_flight Delayed 25 0 0;
                 mkFlight "a1" "OCE204" LHR DXB Departed 0 "11:00" "09:00"
                          "Airbus A320" 30000 500 7 "A" []]
  = [(LHR, 3); (JFK, 2)].
Proof. reflexivity. Qed.

(** ** Strings *)

Section Strings.
Local Open Scope string_scope.


Lemma append_assoc (a b c : string) : (a ++ b) ++ c = a ++ b ++ c.
Proof. induction a as [|x a IH]; simpl; congruence. Qed.


Lemma prefix_split (n s : string) :
  String.prefix n s = true <-> exists post, s = n ++ post.
Proof.
  revert s. induction n as [|c n IH]; intros s.
  - split; [intros _; now exists s | intros _; now destruct s].
  - destruct s as [|d s]; simpl.
    + split; [discriminate | intros [post E]; discriminate].
    + destruct (Ascii.ascii_dec c d) as [-> | Hne].
      * rewrite IH. split; intros [post E]; exists post; congruence.
      * split; [discriminate | intros [post E]; congruence].
Qed.

Lemma includes_split (s n : string) :
  JsString.includes s n = true <-> exists pre post, s = pre ++ n ++ post.
Proof.
  induction s as [|c s IH].
  - change (JsString.includes "" n) with (String.prefix n "" || false)%bool.
    rewrite orb_false_r, prefix_split. split.
    + intros [post E]. now exists "", post.
    + intros (pre & post & E). destruct pre; [now exists post | discriminate].
  - change (JsString.includes (String c s) n)
      with (String.prefix n (String c s) || JsString.includes s n)%bool.
    rewrite orb_true_iff, prefix_split, IH. split.
    + intros [[post E] | (pre & post & E)].
      * now exists "", post.
      * exists (String c pre), post. simpl. congruence.
    + intros (pre & post & E). destruct pre as [|d pre].
      * left. now exists post.
      * right. exists pre, post. simpl in E. congruence.
Qed.

Lemma map_units_append (f : ascii -> ascii) (a b : string) :
  JsString.map_units f (a ++ b)
  = JsString.map_units f a ++ JsString.map_units f b.
Proof. induction a as [|x a IH]; simpl; congruence. Qed.

(** A split of the image of [s] comes from a split of [s]. *)
Lemma map_units_split (f : ascii -> ascii) (s a b : string) :
  JsString.map_units f s = a ++ b ->
  exists s1 s2, s = s1 ++ s2 /\
    JsString.map_units f s1 = a /\ JsString.map_units f s2 = b.
Proof.
  revert s. induction a as [|x a IH]; intros s E; simpl in E.
  - now exists "", s.
  - destruct s as [|c s]; [discriminate |].
    simpl in E. injection E as Ec Es.
    destruct (IH s Es) as (s1 & s2 & -> & E1 & E2).
    exists (String c s1), s2. simpl. repeat split; congruence.
Qed.

Lemma has_lower_image (n : N) :
  JsString.has_lower n = true ->
  (n + 32 < 256)%N /\ JsString.has_lower (n + 32) = false.
Proof.
  unfold JsString.has_lower. intros Hn.
  repeat match goal with
         | |- context [(?a <=? ?b)%N] => destruct (N.leb_spec a b)
         | |- context [(?a =? ?b)%N] => destruct (N.eqb_spec a b)
         | H : context [(?a <=? ?b)%N] |- _ => destruct (N.leb_spec a b)
         | H : context [(?a =? ?b)%N] |- _ => destruct (N.eqb_spec a b)
         end; simpl in *; try discriminate; split; try reflexivity; lia.
Qed.

Lemma lower_unit_same (c d : ascii) :
  JsString.lower_unit c = JsString.lower_unit d <-> same_letter c d.
Proof.
  unfold JsString.lower_unit, same_letter.
  pose proof (ascii_N_embedding c) as Ec.
  pose proof (ascii_N_embedding d) as Ed.
  destruct (JsString.has_lower (N_of_ascii c)) eqn:Hc;
    destruct (JsString.has_lower (N_of_ascii d)) eqn:Hd.
  - destruct (has_lower_image _ Hc) as [Bc _].
    destruct (has_lower_image _ Hd) as [Bd _].
    split.
    + intros E. left. apply (f_equal N_of_ascii) in E.
      rewrite !N_ascii_embedding in E by assumption.
      assert (En : N_of_ascii c = N_of_ascii d) by lia.
      rewrite <- Ec, <- Ed. now rewrite En.
    + intros [-> | [[_ E] | [_ E]]]; [reflexivity | |].
      * destruct (has_lower_image _ Hc) as [_ F]. rewrite <- E in F. congruence.
      * destruct (has_lower_image _ Hd) as [_ F]. rewrite <- E in F. congruence.
  - destruct (has_lower_image _ Hc) as [Bc Fc]. split.
    + intros E. right. left. split; [reflexivity |].
      rewrite <- E. now rewrite N_ascii_embedding.
    + intros [-> | [[_ E] | [F _]]]; [congruence | | discriminate].
      rewrite <- E. exact Ed.
  - destruct (has_lower_image _ Hd) as [Bd Fd]. split.
    + intros E. right. right. split; [reflexivity |].
      rewrite E. now rewrite N_ascii_embedding.
    + intros [-> | [[F _] | [_ E]]]; [congruence | discriminate |].
      rewrite <- E. symmetry. exact Ec.
  - split; [now left |].
    intros [-> | [[F _] | [F _]]]; [reflexivity | discriminate | discriminate].
Qed.

Lemma toLowerCase_same (a b : string) :
  JsString.toLowerCase a = JsString.toLowerCase b <-> same_text a b.
Proof.
  unfold JsString.toLowerCase. split.
  - revert b. induction a as [|c a IH]; intros [|d b] E; simpl in E;
      try discriminate; [constructor |].
    injection E as Ec Es. constructor; [now apply lower_unit_same | auto].
  - induction 1 as [|c d s t Hcd Hst IH]; simpl; [reflexivity |].
    apply lower_unit_same in Hcd. congruence.
Qed.

Lemma field_matches_spec (field q : string) :
  field_matches field q = true <-> ci_substring q field.
Proof.
  unfold field_matches, ci_substring, JsString.toLowerCase.
  rewrite includes_split. split.
  - intros (pre & post & E).
    apply map_units_split in E as (s1 & s23 & -> & E1 & E23).
    apply map_units_split in E23 as (s2 & s3 & -> & E2 & E3).
    exists s1, s2, s3. split; [reflexivity |].
    now apply toLowerCase_same.
  - intros (pre & mid & post & -> & Hsame).
    apply toLowerCase_same in Hsame. unfold JsString.toLowerCase in Hsame.
    exists (JsString.map_units JsString.lower_unit pre),
           (JsString.map_units JsString.lower_unit post).
    now rewrite !map_units_append, Hsame.
Qed.

End Strings.

(** ** Search *)

(** C8. A record matches a query exactly when the query is, up to the
    case of its letters, a stretch of the record's flight number, origin,
    destination or status.  The record ABC123 from JFK to LHR, Delayed,
    is found by "jfk" and not by "xyz". *)
Theorem search_matches :
  (forall (q : string) (f : Flight),
     matches q f = true <->
     ci_substring q (flightNumber f) \/
     ci_substring q (airport_code (origin f)) \/
     ci_substring q (airport_code (destination f)) \/
     ci_substring q (status_label (status f))) /\
  (forall delay alt spd : Z,
     let f := sample_flight Delayed delay alt spd in
     flightNumber f = "ABC123"%string /\ origin f = JFK /\
     destination f = LHR /\ status f = Delayed /\
     filteredFlights [f] "jfk" = [f] /\
     filteredFlights [f] "xyz" = []).
Proof.
  split.
  - intros q f. unfold matches.
    rewrite !orb_true_iff, !field_matches_spec. tauto.
  - intros delay alt spd. cbv zeta. repeat split; reflexivity.
Qed.

(** ** Label wrapping *)

Section Wrapping.
Local Open Scope string_scope.

Lemma split_not_nil (s : string) : JsString.split " " s <> [].
Proof.
  destruct s as [|c s]; simpl; [discriminate |].
  destruct (Ascii.eqb c " "); [discriminate |].
  destruct (JsString.split " " s); discriminate.
Qed.

Lemma split_free (s : string) :
  Forall (fun w => free_of_space w = true) (JsString.split " " s).
Proof.
  induction s as [|c s IH]; simpl.
  - repeat constructor.
  - destruct (Ascii.eqb c " ") eqn:E.
    + constructor; [reflexivity | exact IH].
    + destruct (JsString.split " " s) as [|w ws]; simpl.
      * repeat constructor. simpl. now rewrite E.
      * inversion IH; subst. constructor; [| assumption].
        simpl. now rewrite E.
Qed.

Lemma split_of_free (w : string) :
  free_of_space w = true -> JsString.split " " w = [w].
Proof.
  induction w as [|c w IH]; simpl; [reflexivity |].
  intros Hf. apply andb_prop in Hf as [Hc Hw].
  apply negb_true_iff in Hc. rewrite Hc, (IH Hw). reflexivity.
Qed.

Lemma split_append (a b : string) :
  JsString.split " " (a ++ String " " b)
  = (JsString.split " " a ++ JsString.split " " b)%list.
Proof.
  induction a as [|c a IH]; simpl.
  - reflexivity.
  - rewrite IH. destruct (Ascii.eqb c " "); [reflexivity |].
    pose proof (split_not_nil a) as Hne.
    destruct (JsString.split " " a); [congruence | reflexivity].
Qed.

Lemma first_word_append (a b : string) :
  first_word (a ++ " " ++ b) = first_word a.
Proof.
  unfold first_word. simpl. rewrite split_append.
  pose proof (split_not_nil a) as Hne.
  destruct (JsString.split " " a); [congruence | reflexivity].
Qed.

Lemma concat_split (s : string) :
  String.concat " " (JsString.split " " s) = s.
Proof.
  induction s as [|c s IH]; simpl; [reflexivity |].
  pose proof (split_not_nil s) as Hne.
  destruct (Ascii.eqb_spec c " ") as [-> | Hc].
  - simpl. destruct (JsString.split " " s); [congruence |].
    now rewrite IH.
  - destruct (JsString.split " " s) as [|w ws]; [congruence |].
    rewrite <- IH. destruct ws; reflexivity.
Qed.



Lemma free_of_space_trimStart (s : string) :
  free_of_space s = true -> free_of_space (JsString.trimStart s) = true.
Proof.
  induction s as [|c s IH]; simpl; [reflexivity |].
  intros Hf. destruct (JsString.is_space c); [| exact Hf].
  apply andb_prop in Hf as [_ Hs]. auto.
Qed.

Lemma free_of_space_trimEnd (s : string) :
  free_of_space s = true -> free_of_space (JsString.trimEnd s) = true.
Proof.
  induction s as [|c s IH]; simpl; [reflexivity |].
  intros Hf. apply andb_prop in Hf as [Hc Hs]. specialize (IH Hs).
  destruct (JsString.trimEnd s).
  - destruct (JsString.is_space c); simpl; [reflexivity |].
    now rewrite Hc.
  - simpl in *. now rewrite Hc.
Qed.

Lemma length_trimStart (s : string) :
  (String.length (JsString.trimStart s) <= String.length s)%nat.
Proof.
  induction s as [|c s IH]; simpl; [lia |].
  destruct (JsString.is_space c); simpl; lia.
Qed.

Lemma length_trimEnd (s : string) :
  (String.length (JsString.trimEnd s) <= String.length s)%nat.
Proof.
  induction s as [|c s IH]; simpl; [lia |].
  destruct (JsString.trimEnd s).
  - destruct (JsString.is_space c); simpl; lia.
  - simpl in *. lia.
Qed.

Lemma line_fits_trim (line : string) :
  line_fits line -> line_fits (JsString.trim line).
Proof.
  unfold line_fits, JsString.trim. intros [Hlen | Hfree].
  - left. pose proof (length_trimStart line).
    pose proof (length_trimEnd (JsString.trimStart line)). lia.
  - right. now apply free_of_space_trimEnd, free_of_space_trimStart.
Qed.

Lemma push_line_fits (lines : list string) (currentLine : string) :
  Forall line_fits lines -> line_fits currentLine ->
  Forall line_fits (push_line lines currentLine).
Proof.
  intros Hl Hc. unfold push_line.
  destruct (JsString.truthy currentLine); [| exact Hl].
  apply Forall_app. split; [exact Hl |].
  constructor; [now apply line_fits_trim | constructor].
Qed.

Lemma wrap_loop_fits (words lines : list string) (currentLine : string) :
  Forall (fun w => free_of_space w = true) words ->
  Forall line_fits lines -> line_fits currentLine ->
  Forall line_fits (fst (fold_left wrap_step words (lines, currentLine))) /\
  line_fits (snd (fold_left wrap_step words (lines, currentLine))).
Proof.
  intros Hw. revert lines currentLine.
  induction Hw as [|w words Hfree Hw IH]; intros lines cur Hl Hc; simpl.
  - split; assumption.
  - destruct (Nat.ltb_spec maxLength (String.length (extend cur w))) as [Hlong | Hfit].
    + apply IH; [now apply push_line_fits | now right].
    + apply IH; [exact Hl | now left].
Qed.

Lemma concat_cons (x : string) (l : list string) :
  l <> [] -> String.concat " " (x :: l) = x ++ " " ++ String.concat " " l.
Proof. destruct l; [congruence | reflexivity]. Qed.

Lemma concat_merge (l r : list string) (a b : string) :
  String.concat " " (l ++ (a ++ " " ++ b)%string :: r)%list
  = String.concat " " (l ++ a :: b :: r)%list.
Proof.
  induction l as [|x l IH].
  - rewrite !app_nil_l, (concat_cons a) by discriminate.
    destruct r as [|y r]; [reflexivity |].
    rewrite !concat_cons by discriminate.
    now rewrite !append_assoc.
  - rewrite <- !app_comm_cons.
    rewrite !concat_cons by (destruct l; discriminate).
    now rewrite IH.
Qed.

Lemma trimStart_solid (u : string) :
  starts_solid u -> JsString.trimStart u = u.
Proof. destruct u as [|c u]; simpl; [tauto | now intros ->]. Qed.

Lemma trimEnd_solid (u : string) : ends_solid u -> JsString.trimEnd u = u.
Proof.
  induction u as [|c u IH]; [simpl; tauto |].
  destruct u as [|d u].
  - simpl. now intros ->.
  - intros Hu. change (ends_solid (String d u)) in Hu.
    change (JsString.trimEnd (String c (String d u)))
      with (match JsString.trimEnd (String d u) with
            | EmptyString =>
                if JsString.is_space c then EmptyString
                else String c EmptyString
            | t' => String c t'
            end).
    now rewrite (IH Hu).
Qed.

Lemma trim_solid (u : string) : solid u -> JsString.trim u = u.
Proof.
  intros [Hs He]. unfold JsString.trim.
  now rewrite trimStart_solid, trimEnd_solid.
Qed.

Lemma solid_truthy (u : string) : solid u -> JsString.truthy u = true.
Proof. intros [Hs _]. destruct u; [contradiction | reflexivity]. Qed.

Lemma starts_solid_append (a b : string) :
  starts_solid a -> starts_solid (a ++ b).
Proof. destruct a; simpl; tauto. Qed.

Lemma ends_solid_append (a b : string) :
  ends_solid b -> ends_solid (a ++ b).
Proof.
  intros Hb. induction a as [|c a IH]; [exact Hb |].
  change (String c a ++ b) with (String c (a ++ b)).
  destruct (a ++ b) eqn:E; [contradiction | exact IH].
Qed.

Lemma solid_extend (currentLine word : string) :
  solid currentLine -> solid word ->
  extend currentLine word = currentLine ++ " " ++ word /\
  solid (extend currentLine word).
Proof.
  intros Hc Hw. unfold extend. rewrite (solid_truthy _ Hc).
  split; [reflexivity |]. split.
  - apply starts_solid_append, Hc.
  - apply ends_solid_append, (ends_solid_append " "), Hw.
Qed.

Lemma ends_solid_of_trimEnd (u : string) :
  u <> "" -> JsString.trimEnd u = u -> ends_solid u.
Proof.
  induction u as [|c u IH]; [congruence | intros _ E].
  simpl in E. destruct (JsString.trimEnd u) as [|d t] eqn:Et.
  - destruct (JsString.is_space c) eqn:Ec; [discriminate |].
    injection E as <-. exact Ec.
  - injection E as <-. apply IH; [discriminate | reflexivity].
Qed.

Lemma solid_of_trim (w : string) :
  JsString.truthy w = true -> JsString.trim w = w -> solid w.
Proof.
  destruct w as [|c w]; [discriminate | intros _ E].
  unfold JsString.trim in E.
  destruct (JsString.is_space c) eqn:Ec.
  - exfalso. simpl in E. rewrite Ec in E.
    apply (f_equal String.length) in E.
    pose proof (length_trimEnd (JsString.trimStart w)).
    pose proof (length_trimStart w). simpl in E. lia.
  - assert (Es : JsString.trimStart (String c w) = String c w)
      by (simpl; now rewrite Ec).
    rewrite Es in E. split; [exact Ec |].
    apply ends_solid_of_trimEnd; [discriminate | exact E].
Qed.

Lemma tidy_words (s : string) :
  tidy s = true ->
  Forall (fun w => solid w /\ free_of_space w = true) (JsString.split " " s).
Proof.
  unfold tidy. rewrite forallb_forall. intros Ht.
  pose proof (split_free s) as Hf. rewrite Forall_forall in *.
  intros w Hw. split; [| now apply Hf].
  apply Ht in Hw. apply andb_prop in Hw as [Hn He].
  apply String.eqb_eq in He. now apply solid_of_trim.
Qed.

Lemma greedy_snoc (l : list string) (a b : string) :
  greedy_breaks (l ++ [a])%list ->
  (maxLength < String.length (a ++ " " ++ first_word b))%nat ->
  greedy_breaks ((l ++ [a]) ++ [b])%list.
Proof.
  intros Hg Hab. induction l as [|x l IH].
  - simpl. auto.
  - destruct l as [|y l].
    + simpl in *. tauto.
    + change (greedy_breaks (x :: ((y :: l) ++ [a]) ++ [b])%list).
      change (greedy_breaks (x :: (y :: l) ++ [a])%list) in Hg.
      simpl in Hg |- *. destruct Hg as [Hxy Hg]. split; [exact Hxy |].
      apply IH. exact Hg.
Qed.

Lemma greedy_grow_last (l : list string) (a a' : string) :
  first_word a' = first_word a ->
  greedy_breaks (l ++ [a])%list -> greedy_breaks (l ++ [a'])%list.
Proof.
  intros Hfw. induction l as [|x l IH]; [simpl; auto |].
  destruct l as [|y l].
  - simpl. rewrite Hfw. tauto.
  - intros Hg. simpl in Hg |- *. destruct Hg as [Hxy Hg].
    split; [exact Hxy | now apply IH].
Qed.

Lemma wrap_step_solid (lines : list string) (currentLine word : string) :
  solid currentLine -> solid word ->
  wrap_step (lines, currentLine) word
  = if (maxLength <? String.length (currentLine ++ " " ++ word))%nat
    then ((lines ++ [currentLine])%list, word)
    else (lines, currentLine ++ " " ++ word).
Proof.
  intros Hc Hw. unfold wrap_step, push_line.
  destruct (solid_extend currentLine word Hc Hw) as [-> _].
  now rewrite (solid_truthy _ Hc), (trim_solid _ Hc).
Qed.

Lemma wrap_loop_tidy (words : list string) :
  Forall (fun w => solid w /\ free_of_space w = true) words ->
  forall (lines : list string) (currentLine : string),
    solid currentLine ->
    greedy_breaks (lines ++ [currentLine])%list ->
    let st := fold_left wrap_step words (lines, currentLine) in
    solid (snd st) /\
    String.concat " " (fst st ++ [snd st])%list
      = String.concat " " (lines ++ currentLine :: words)%list /\
    greedy_breaks (fst st ++ [snd st])%list.
Proof.
  induction 1 as [|w words [Hw Hfree] Hws IH]; intros lines cur Hc Hg.
  - simpl. auto.
  - cbv zeta.
    change (fold_left wrap_step (w :: words) (lines, cur))
      with (fold_left wrap_step words (wrap_step (lines, cur) w)).
    rewrite (wrap_step_solid lines cur w Hc Hw).
    destruct (solid_extend cur w Hc Hw) as [Eext Hext]. rewrite Eext in Hext.
    destruct (Nat.ltb_spec maxLength (String.length (cur ++ " " ++ w)))
      as [Hlong | Hfit].
    + assert (Hg' : greedy_breaks ((lines ++ [cur]) ++ [w])%list).
      { apply greedy_snoc; [exact Hg |].
        unfold first_word. rewrite (split_of_free w Hfree). exact Hlong. }
      destruct (IH (lines ++ [cur])%list w Hw Hg') as (Hs & Hcat & Hgr).
      split; [exact Hs | split; [| exact Hgr]].
      rewrite Hcat, <- app_assoc. reflexivity.
    + assert (Hg' : greedy_breaks (lines ++ [(cur ++ " " ++ w)%string])%list).
      { apply (greedy_grow_last lines cur); [| exact Hg].
        apply first_word_append. }
      destruct (IH lines (cur ++ " " ++ w) Hext Hg') as (Hs & Hcat & Hgr).
      split; [exact Hs | split; [| exact Hgr]].
      rewrite Hcat. apply concat_merge.
Qed.

End Wrapping.

Lemma wrap_first_word (w : string) :
  wrap_step ([], EmptyString) w = ([], w).
Proof.
  unfold wrap_step, extend, push_line. simpl.
  now destruct (maxLength <? String.length w)%nat.
Qed.

Lemma printed_snoc (raw : list string) (line : string) :
  printed (raw ++ [line]) = push_line (printed raw) line.
Proof.
  unfold printed, push_line. rewrite filter_app, map_app. simpl.
  destruct (JsString.truthy line); simpl; [reflexivity | apply app_nil_r].
Qed.

Lemma render_snoc (group : list string) (w : string) :
  render (group ++ [w]) = extend (render group) w.
Proof. unfold render. now rewrite fold_left_app. Qed.

Lemma adjacent_snoc {A : Type} (R : A -> A -> Prop) (l : list A) (a b : A) :
  adjacent R (l ++ [a]) -> R a b -> adjacent R ((l ++ [a]) ++ [b]).
Proof.
  intros Hl Hab. induction l as [|x l IH]; [simpl; auto |].
  destruct l as [|y l]; [simpl in *; tauto |].
  simpl in Hl |- *. destruct Hl as [Hxy Hl]. split; [exact Hxy | now apply IH].
Qed.

Lemma adjacent_last {A : Type} (R : A -> A -> Prop) (l : list A) (a a' : A) :
  (forall x, R x a -> R x a') ->
  adjacent R (l ++ [a]) -> adjacent R (l ++ [a']).
Proof.
  intros HR. induction l as [|x l IH]; [simpl; auto |].
  destruct l as [|y l]; [simpl; intuition |].
  intros Hl. simpl in Hl |- *. destruct Hl as [Hxy Hl].
  split; [exact Hxy | now apply IH].
Qed.

(** The loop, started on the lines of [groups] with the words of
    [group] on the current line, ends on the lines of a grouping of all
    the words that keeps the width and breaks late. *)
Lemma wrap_loop_groups (words : list string) :
  forall (groups : list (list string)) (group : list string),
    group <> [] ->
    Forall (fun g => g <> []) groups ->
    Forall fits_width (groups ++ [group]) ->
    adjacent breaks_late (groups ++ [group]) ->
    exists groups',
      List.concat groups' = List.concat (groups ++ [group]) ++ words /\
      Forall (fun g => g <> []) groups' /\
      Forall fits_width groups' /\
      adjacent breaks_late groups' /\
      (let st := fold_left wrap_step words
                   (printed (map render groups), render group) in
       push_line (fst st) (snd st) = printed (map render groups')).
Proof.
  induction words as [|w words IH]; intros groups group Hne Hgs Hfit Hadj.
  - exists (groups ++ [group]). rewrite app_nil_r.
    split; [reflexivity |]. split.
    { apply Forall_app. split; [exact Hgs | now constructor]. }
    split; [exact Hfit |]. split; [exact Hadj |].
    cbv zeta. cbn [fold_left fst snd].
    rewrite map_app. cbn [map]. now rewrite printed_snoc.
  - change (fold_left wrap_step (w :: words)
              (printed (map render groups), render group))
      with (fold_left wrap_step words
              (wrap_step (printed (map render groups), render group) w)).
    unfold wrap_step.
    destruct (Nat.ltb_spec maxLength
                (String.length (extend (render group) w))) as [Hlong | Hshort].
    + assert (Hgs' : Forall (fun g => g <> []) (groups ++ [group])).
      { apply Forall_app. split; [exact Hgs | now constructor]. }
      assert (Hfit' : Forall fits_width ((groups ++ [group]) ++ [[w]])).
      { apply Forall_app. split; [exact Hfit |].
        constructor; [right; now exists w | constructor]. }
      assert (Hadj' : adjacent breaks_late ((groups ++ [group]) ++ [[w]])).
      { apply adjacent_snoc; [exact Hadj | exact Hlong]. }
      destruct (IH (groups ++ [group]) [w] ltac:(discriminate)
                   Hgs' Hfit' Hadj')
        as (groups' & Hcat & Hne' & Hw' & Ha' & Hout).
      exists groups'. split.
      { rewrite Hcat, concat_app. simpl. now rewrite <- app_assoc. }
      split; [exact Hne' |]. split; [exact Hw' |]. split; [exact Ha' |].
      rewrite map_app in Hout. cbn [map] in Hout.
      rewrite printed_snoc in Hout. exact Hout.
    + assert (Hne' : group ++ [w] <> []) by (destruct group; discriminate).
      assert (Hfit' : Forall fits_width (groups ++ [group ++ [w]])).
      { apply Forall_app. apply Forall_app in Hfit as [Hfit _].
        split; [exact Hfit |]. constructor; [| constructor].
        left. now rewrite render_snoc. }
      assert (Hadj' : adjacent breaks_late (groups ++ [group ++ [w]])).
      { apply (adjacent_last _ groups group); [| exact Hadj].
        intros x Hx. unfold breaks_late in *.
        destruct group; [congruence | exact Hx]. }
      destruct (IH groups (group ++ [w]) Hne' Hgs Hfit' Hadj')
        as (groups' & Hcat & Hgs' & Hw' & Ha' & Hout).
      exists groups'. split.
      { rewrite Hcat, !concat_app. simpl. rewrite ?app_nil_r, <- ?app_assoc.
        reflexivity. }
      split; [exact Hgs' |]. split; [exact Hw' |]. split; [exact Ha' |].
      rewrite render_snoc in Hout. exact Hout.
Qed.

Lemma printed_width (groups : list (list string)) :
  Forall fits_width groups ->
  Forall (fun w => (String.length w <= maxLength)%nat) (List.concat groups) ->
  Forall (fun line => (String.length line <= maxLength)%nat)
         (printed (map render groups)).
Proof.
  intros Hfit Hwords. unfold printed.
  apply Forall_map, Forall_forall. intros raw Hraw.
  apply filter_In in Hraw as [Hraw _].
  apply in_map_iff in Hraw as (group & <- & Hgroup).
  assert (Hlen : (String.length (render group) <= maxLength)%nat).
  { rewrite Forall_forall in Hfit. destruct (Hfit group Hgroup) as [H | [w ->]];
      [exact H |].
    rewrite Forall_forall in Hwords. apply Hwords.
    apply in_concat. exists [w]. split; [exact Hgroup | now left]. }
  unfold JsString.trim.
  pose proof (length_trimStart (render group)).
  pose proof (length_trimEnd (JsString.trimStart (render group))). lia.
Qed.

(** C9. A label of at most 16 characters is returned as it is.  A longer
    one is cut at its spaces: its words, in order and none of them split,
    are grouped into runs of consecutive words, and the lines are the runs
    (trimmed, an empty one skipped).  The packing is greedy: no line could
    have taken the first word of the next line without passing 16
    characters.  Lines have at most 16 characters where possible: a run
    is wider only when it is a single word, so every line is at most 16
    characters long or a word without a space, and all lines are at most
    16 characters long when all words are.
    "Boeing 747 Freighter" gives the lines "Boeing 747" and
    "Freighter". *)
Theorem wrapLabel_greedy :
  wrapLabel (Str "Boeing 747 Freighter")
    = Arr ["Boeing 747"; "Freighter"]%string /\
  (forall s, (String.length s <= maxLength)%nat -> wrapLabel (Str s) = Str s) /\
  (forall s, (maxLength < String.length s)%nat ->
     exists groups : list (list string),
       List.concat groups = JsString.split " " s /\
       Forall (fun g => g <> []) groups /\
       wrapLabel (Str s) = Arr (printed (map render groups)) /\
       adjacent breaks_late groups /\
       Forall fits_width groups /\
       Forall line_fits (printed (map render groups)) /\
       (Forall (fun w => (String.length w <= maxLength)%nat)
               (JsString.split " " s) ->
        Forall (fun line => (String.length line <= maxLength)%nat)
               (printed (map render groups)))).
Proof.
  split; [reflexivity |]. split.
  - intros s Hs. unfold wrapLabel.
    now destruct (Nat.leb_spec (String.length s) maxLength); [| lia].
  - intros s Hs.
    assert (Hout : exists lines cur,
               fold_left wrap_step (JsString.split " " s) ([], EmptyString)
               = (lines, cur) /\
               wrapLabel (Str s) = Arr (push_line lines cur)).
    { unfold wrapLabel.
      destruct (Nat.leb_spec (String.length s) maxLength) as [Hle | _];
        [lia |].
      destruct (fold_left wrap_step (JsString.split " " s) ([], EmptyString))
        as [lines cur].
      now exists lines, cur. }
    destruct Hout as (lines & cur & Eloop & Ewrap).
    pose proof (wrap_loop_fits (JsString.split " " s) [] EmptyString
                  (split_free s) (Forall_nil _)) as Hfits.
    rewrite Eloop in Hfits.
    destruct Hfits as [Hl Hc]; [left; simpl; unfold maxLength; lia |].
    pose proof (push_line_fits lines cur Hl Hc) as Hlines.
    destruct (JsString.split " " s) as [|w rest] eqn:Ewords.
    { now apply split_not_nil in Ewords. }
    change (fold_left wrap_step (w :: rest) ([], EmptyString))
      with (fold_left wrap_step rest (wrap_step ([], EmptyString) w))
      in Eloop.
    rewrite wrap_first_word in Eloop.
    destruct (wrap_loop_groups rest [] [w]) as
      (groups & Hcat & Hne & Hfit & Hadj & Hpush).
    { discriminate. }
    { constructor. }
    { constructor; [right; now exists w | constructor]. }
    { exact I. }
    change (printed (map render []), render [w]) with (@nil string, w)
      in Hpush.
    rewrite Eloop in Hpush. simpl fst in Hpush. simpl snd in Hpush.
    rewrite Hpush in Ewrap, Hlines.
    exists groups. split; [exact Hcat |]. split; [exact Hne |].
    split; [exact Ewrap |]. split; [exact Hadj |]. split; [exact Hfit |].
    split; [exact Hlines |].
    intros Hwords. apply printed_width; [exact Hfit |].
    rewrite Hcat. exact Hwords.
Qed.

Lemma wrapLabel_greedy_witness :
  (maxLength < String.length "Boeing 747 Freighter")%nat /\
  Forall (fun w => (String.length w <= maxLength)%nat)
         (JsString.split " " "Boeing 747 Freighter") /\
  exists groups : list (list string),
    List.concat groups = JsString.split " " "Boeing 747 Freighter" /\
    wrapLabel (Str "Boeing 747 Freighter")
      = Arr (printed (map render groups)) /\
    adjacent breaks_late groups /\
    Forall (fun line => (String.length line <= maxLength)%nat)
           (printed (map render groups)).
Proof.
  assert (Hlong : (maxLength < String.length "Boeing 747 Freighter")%nat)
    by (unfold maxLength; simpl; lia).
  assert (Hwords : Forall (fun w => (String.length w <= maxLength)%nat)
                     (JsString.split " " "Boeing 747 Freighter")).
  { unfold maxLength. simpl.
    repeat (constructor; [simpl; lia |]). constructor. }
  split; [exact Hlong |]. split; [exact Hwords |].
  destruct (proj2 (proj2 wrapLabel_greedy) _ Hlong)
    as (groups & Hcat & _ & E & Hadj & _ & _ & Hwidth).
  exists groups. split; [exact Hcat |]. split; [exact E |].
  split; [exact Hadj |]. apply Hwidth. exact Hwords.
Defined.

(** Where it is not possible: a label whose first word has 22
    characters makes a first line of 22 characters. *)
Lemma wrapLabel_wide_word :
  wrapLabel (Str "McDonnell-Douglas-MD11 Freighter")
    = Arr ["McDonnell-Douglas-MD11"; "Freighter"]%string /\
  ~ Forall (fun line => (String.length line <= maxLength)%nat)
      (lines_of (wrapLabel (Str "McDonnell-Douglas-MD11 Freighter"))).
Proof.
  split; [reflexivity |].
  intros Hall. inversion Hall as [|? ? Hfirst _]; subst.
  unfold maxLength in Hfirst. simpl in Hfirst. lia.
Qed.

(* ================================================================= *)
(** * Further properties *)

(** ** Code run on draws of the unit interval *)

Lemma yields_ret {A : Type} (a : A) (post : A -> Prop) :
  post a -> yields (ret a) post.
Proof. intros Ha w Hw. split; assumption. Qed.

Lemma yields_bind {A B : Type} (m : M A) (k : A -> M B)
  (mid : A -> Prop) (post : B -> Prop) :
  yields m mid -> (forall a, mid a -> yields (k a) post) ->
  yields (bind m k) post.
Proof.
  intros Hm Hk w Hw. rewrite run_bind.
  destruct (Hm w Hw) as [Ha Hw']. exact (Hk _ Ha _ Hw').
Qed.

Lemma yields_weaken {A : Type} (m : M A) (post post' : A -> Prop) :
  yields m post -> (forall a, post a -> post' a) -> yields m post'.
Proof.
  intros Hm Himp w Hw. destruct (Hm w Hw) as [Ha Hw']. auto.
Qed.

Lemma yields_random : yields Math_random unit_draw.
Proof. intros w Hw. now apply unit_world_random. Qed.

Lemma yields_now : yields Date_now (fun _ => True).
Proof. intros w Hw. split; [exact I | exact Hw]. Qed.

Lemma yields_random_below (n : Z) :
  0 < n -> yields (random_below n) (fun i => 0 <= i < n).
Proof.
  intros Hn. unfold random_below.
  apply (yields_bind _ _ unit_draw); [apply yields_random |].
  intros r Hr. apply yields_ret. now apply floor_draw_range.
Qed.

Lemma yields_pick {A : Type} (arr : list A) (d : A) :
  arr <> [] -> yields (pick arr d) (fun x => In x arr).
Proof.
  intros Hne. unfold pick.
  apply (yields_bind _ _ (fun i => 0 <= i < Z.of_nat (List.length arr))).
  - apply yields_random_below. destruct arr; [congruence | simpl; lia].
  - intros i Hi. apply yields_ret. apply nth_In. lia.
Qed.

Lemma yields_coord :
  yields random_coord
    (fun c => (-90 <= lat c)%Q /\ (lat c < 90)%Q /\
              (-180 <= lon c)%Q /\ (lon c < 180)%Q).
Proof.
  unfold random_coord.
  apply (yields_bind _ _ unit_draw); [apply yields_random |].
  intros a [Ha0 Ha1].
  apply (yields_bind _ _ unit_draw); [apply yields_random |].
  intros b [Hb0 Hb1]. apply yields_ret. simpl.
  unfold Qle, Qlt in *. simpl in *. repeat split; lia.
Qed.

Lemma yields_mapM {A B : Type} (f : A -> M B) (R : A -> B -> Prop)
  (l : list A) :
  (forall x, yields (f x) (R x)) -> yields (mapM f l) (Forall2 R l).
Proof.
  intros Hf. induction l as [|x t IH]; simpl.
  - apply yields_ret. constructor.
  - apply (yields_bind _ _ (R x)); [apply Hf |]. intros y Hy.
    apply (yields_bind _ _ (Forall2 R t)); [exact IH |]. intros ys Hys.
    apply yields_ret. now constructor.
Qed.

Lemma yields_replicateM {A : Type} (m : M A) (post : A -> Prop) (n : nat) :
  yields m post ->
  yields (replicateM n m) (fun l => List.length l = n /\ Forall post l).
Proof.
  intros Hm. induction n as [|n IH]; simpl.
  - apply yields_ret. split; [reflexivity | constructor].
  - apply (yields_bind _ _ post); [exact Hm |]. intros x Hx.
    apply (yields_bind _ _ _ _ IH). intros xs [Hlen Hxs].
    apply yields_ret. split; [simpl; congruence | now constructor].
Qed.

(** ** Generated records *)

Ltac yields_step lem :=
  eapply yields_bind; [apply lem | cbv beta; intros ? ?; cbv zeta].

Lemma three_digits (n : Z) :
  100 <= n <= 999 -> String.length (JsString.of_integer n) = 3%nat.
Proof.
  intros Hn.
  assert (Hall : forallb (fun k => String.length
                            (JsString.of_integer (100 + Z.of_nat k)) =? 3)%nat
                         (seq 0 900) = true) by (vm_compute; reflexivity).
  rewrite forallb_forall in Hall.
  specialize (Hall (Z.to_nat (n - 100))).
  replace (100 + Z.of_nat (Z.to_nat (n - 100))) with n in Hall by lia.
  apply Nat.eqb_eq, Hall, in_seq. lia.
Qed.

Section Generated.
Context `{Host}.

Lemma generated_well_formed :
  yields generateMockFlight
    (fun f => in_range f /\
              exists p n, In p prefixes /\ 100 <= n <= 999 /\
                flightNumber f = (p ++ JsString.of_integer n)%string).
Proof.
  unfold generateMockFlight.
  eapply yields_bind; [apply (yields_pick statuses); discriminate |].
  intros st _.
  apply (yields_bind _ _ (fun d => (st = Delayed -> 10 <= d < 130) /\
                                   (st <> Delayed -> d = 0))).
  { destruct st; simpl;
      try (apply yields_ret; split; [discriminate | reflexivity]).
    eapply yields_bind; [apply (yields_random_below 120); lia |].
    intros n Hn. cbv beta in Hn. apply yields_ret. split; [lia | congruence]. }
  intros delay [Hdel Hnodel].
  yields_step yields_now. yields_step yields_random.
  yields_step yields_now. yields_step yields_random.
  yields_step yields_random.
  eapply yields_bind; [apply (yields_pick airlines); discriminate |].
  intros airline Hairline. cbv beta in Hairline.
  eapply yields_bind; [apply (yields_random_below 900); lia |].
  intros num Hnum. cbv beta in Hnum.
  eapply yields_bind; [apply (yields_pick airports); discriminate |].
  intros orig _.
  eapply yields_bind; [apply (yields_pick airports); discriminate |].
  intros dest _.
  eapply yields_bind; [apply (yields_pick aircraftTypes); discriminate |].
  intros craft Hcraft. cbv beta in Hcraft.
  apply (yields_bind _ _ (fun a => (st = Departed -> 0 <= a < 40000) /\
                                   (st <> Departed -> a = 0))).
  { destruct st; simpl;
      try (apply yields_ret; split; [discriminate | reflexivity]).
    eapply yields_weaken; [apply (yields_random_below 40000); lia |].
    intros v Hv. cbv beta in Hv. split; [now intros _ | congruence]. }
  intros alt [Halt Hnoalt].
  apply (yields_bind _ _ (fun v => (st = Departed -> 300 <= v < 900) /\
                                   (st <> Departed -> v = 0))).
  { destruct st; simpl;
      try (apply yields_ret; split; [discriminate | reflexivity]).
    eapply yields_bind; [apply (yields_random_below 600); lia |].
    intros n Hn. cbv beta in Hn. apply yields_ret. split; [lia | congruence]. }
  intros spd [Hspd Hnospd].
  eapply yields_bind; [apply (yields_random_below 50); lia |].
  intros g Hg. cbv beta in Hg.
  eapply yields_bind; [apply (yields_random_below 5); lia |].
  intros term Hterm. cbv beta in Hterm.
  yields_step yields_coord. yields_step yields_coord.
  yields_step yields_coord.
  apply yields_ret. split.
  - unfold in_range. simpl.
    split; [exact Hdel |]. split; [exact Hnodel |].
    split; [now split; [apply Halt | apply Hspd] |].
    split; [now split; [apply Hnoalt | apply Hnospd] |].
    split; [lia |]. split.
    { assert (Ht : term = 0 \/ term = 1 \/ term = 2 \/ term = 3 \/ term = 4)
        by lia.
      destruct Ht as [-> | [-> | [-> | [-> | ->]]]]; simpl; auto 6. }
    split; [exact Hcraft |]. split; [reflexivity |].
    repeat constructor; tauto.
  - exists (JsString.toUpperCase (JsString.substr 0 3 airline)), (num + 100).
    split; [| split; [lia | reflexivity]].
    simpl in Hairline.
    destruct Hairline as [<- | [<- | [<- | [<- | [<- | []]]]]];
      simpl; auto 6.
Qed.

End Generated.

(** ** The feed on draws of the unit interval *)

Lemma yields_tick_update (f : Flight) : yields (tick_update f) (transition f).
Proof.
  intros w Hw. split;
    [now apply tick_update_transition | now apply tick_update_unit].
Qed.

Lemma transition_in_range (f g : Flight) :
  in_range f -> transition f g -> in_range g.
Proof.
  unfold in_range.
  intros (Hd & Hnd & Hdep & Hndep & Hgate & Hterm & Hcraft & Hlen & Hco) Ht.
  destruct Ht as [d Hs Hrange | Hs |]; simpl.
  - assert (Hground : altitude f = 0 /\ speed f = 0)
      by (apply Hndep; congruence).
    repeat split; try assumption; try discriminate; try tauto; try lia;
      intros; congruence.
  - assert (Hdelay : isDelayed f = 0) by (apply Hnd; congruence).
    repeat split; try assumption; try discriminate; try reflexivity;
      try tauto; intros; congruence.
  - repeat split; try assumption; tauto.
Qed.

Lemma tick_update_transition_frame (f g : Flight) :
  transition f g -> flightNumber g = flightNumber f.
Proof. now intros []. Qed.

Section UnitFeedProperties.
Context `{Host}.

Lemma yields_tick_grown (P : Flight -> Prop) (prevFlights : list Flight) :
  yields generateMockFlight P ->
  yields (tick_grown prevFlights)
    (fun newFlights => exists mapped appended,
       newFlights = mapped ++ appended /\
       Forall2 transition prevFlights mapped /\
       Forall P appended /\ (List.length appended <= 1)%nat).
Proof.
  intros Hgen. unfold tick_grown.
  eapply yields_bind; [apply yields_mapM, yields_tick_update |].
  intros mapped Hmapped. unfold tick_append.
  eapply yields_bind; [apply yields_random |]. intros r _.
  destruct (Qltb r double_0_2).
  - eapply yields_bind; [exact Hgen |]. intros f Hf.
    apply yields_ret. exists mapped, [f].
    repeat split; auto.
  - apply yields_ret. exists mapped, [].
    rewrite app_nil_r. repeat split; auto.
Qed.

(** A property of single records that generation establishes and every
    transition preserves holds throughout a feed on unit draws. *)
Lemma reachable_unit_Forall (P : Flight -> Prop) :
  yields generateMockFlight P ->
  (forall f g, P f -> transition f g -> P g) ->
  forall flights, reachable_unit flights -> Forall P flights.
Proof.
  intros Hgen Hstep flights Hr.
  induction Hr as [w Hw | flights w Hw Hr IH].
  - apply (yields_replicateM _ _ 50 Hgen w Hw).
  - rewrite tick_kept. apply Forall_drop.
    destruct (yields_tick_grown P flights Hgen w Hw)
      as [(mapped & app & -> & Hmap & Happ & _) _].
    apply Forall_app. split; [| exact Happ].
    apply (Forall2_Forall_r transition P P flights); auto.
Qed.

End UnitFeedProperties.

Lemma replicateM_length {A : Type} (m : M A) (n : nat) (w : World) :
  List.length (fst (replicateM n m w)) = n.
Proof.
  revert w. induction n as [|n IH]; intros w; simpl; [reflexivity |].
  rewrite !run_bind. simpl. now rewrite IH.
Qed.

Lemma length_append (a b : string) :
  String.length (a ++ b) = (String.length a + String.length b)%nat.
Proof. induction a as [|x a IH]; simpl; congruence. Qed.

Section FeedRanges.
Context `{Host}.

Lemma yields_numbered : yields generateMockFlight numbered.
Proof.
  eapply yields_weaken; [apply generated_well_formed |].
  intros f [_ (p & n & Hp & Hn & E)]. split; [| now exists p, n].
  rewrite E, length_append, (three_digits n Hn).
  simpl in Hp. destruct Hp as [<- | [<- | [<- | [<- | [<- | []]]]]];
    reflexivity.
Qed.

(** X1. A record generated from draws of [0, 1) has every field in its
    range: a delay of 10 to 129 minutes exactly when Delayed and 0
    otherwise, an altitude below 40000 and a speed of 300 to 899 when
    Departed and 0 otherwise, a gate of 1 to 50, a terminal A to E, one
    of the four aircraft types and three route points within
    [-90, 90) by [-180, 180). *)
Theorem generated_in_range (w : World) :
  unit_world w -> in_range (fst (generateMockFlight w)).
Proof. intros Hw. apply (generated_well_formed w Hw). Qed.

(** X2. In every state of a feed on draws of [0, 1), each flight number
    is one of SKY, GLO, OCE, STA, CON followed by a number from 100 to
    999, six characters in all. *)
Theorem flight_numbers_formed (flights : list Flight) :
  reachable_unit flights -> Forall numbered flights.
Proof.
  apply reachable_unit_Forall; [apply yields_numbered |].
  intros f g Hf Ht. apply tick_update_transition_frame in Ht.
  unfold numbered in *. now rewrite Ht.
Qed.

(** X3. The feed always holds exactly 50 records: the initial state
    does, and a tick of a state of 50 records returns 50 records whether
    or not it appends one. *)
Theorem feed_size_constant (flights : list Flight) :
  reachable flights -> List.length flights = 50%nat.
Proof.
  induction 1 as [w | flights w Hr IH].
  - apply replicateM_length.
  - rewrite tick_kept, length_skipn.
    destruct (tick_grown_split flights w) as (app & -> & Happ).
    rewrite length_app, mapM_length, IH.
    destruct Happ as [-> | [w' ->]]; simpl; lia.
Qed.

(** X4. From any state, a tick returns at least as many records as it
    was given, up to 50, and at most one more than it was given. *)
Theorem tick_size_bounds (prevFlights : list Flight) (w : World) :
  (Nat.min (List.length prevFlights) 50
     <= List.length (fst (tick prevFlights w))
     <= Nat.min (List.length prevFlights + 1) 50)%nat.
Proof.
  rewrite tick_kept, length_skipn.
  destruct (tick_grown_split prevFlights w) as (app & -> & Happ).
  rewrite length_app, mapM_length.
  destruct Happ as [-> | [w' ->]]; simpl; lia.
Qed.

Lemma unit_feed_ranges (flights : list Flight) :
  reachable_unit flights -> Forall in_range flights.
Proof.
  apply reachable_unit_Forall.
  - eapply yields_weaken; [apply generated_well_formed |]. now intros f [].
  - apply transition_in_range.
Qed.

(** X5. In every state of a feed on draws of [0, 1), every record has
    its fields in range, and it is Delayed exactly when its delay is
    positive. *)
Theorem feed_in_range (flights : list Flight) :
  reachable_unit flights ->
  Forall (fun f => in_range f /\ (status f = Delayed <-> 0 < isDelayed f))
         flights.
Proof.
  intros Hr. apply unit_feed_ranges in Hr.
  eapply Forall_impl; [| exact Hr].
  intros f Hf. split; [exact Hf |].
  destruct Hf as (Hd & Hnd & _). split.
  - intros Hs. apply Hd in Hs. lia.
  - intros Hpos. destruct (Status_eq_dec (status f) Delayed) as [E | NE];
      [exact E |]. apply Hnd in NE. lia.
Qed.

End FeedRanges.

(** X6. A record is changed by at most one tick: once the callback has
    returned a different record, it returns that record unchanged under
    every later draw. *)
Theorem record_changes_once (f : Flight) (w w' : World) :
  fst (tick_update f w) <> f ->
  fst (tick_update (fst (tick_update f w)) w') = fst (tick_update f w).
Proof.
  intros Hchanged.
  destruct (tick_update_outcome f w) as [d Hs | Hs |];
    [| | congruence];
    rewrite tick_update_eval; simpl status; cbn [Status_beq];
    now rewrite !andb_false_r.
Qed.

(** ** Searching *)

Lemma includes_empty (s : string) : JsString.includes s EmptyString = true.
Proof. now destruct s. Qed.

Lemma filter_all {A : Type} (p : A -> bool) (l : list A) :
  (forall x, In x l -> p x = true) -> filter p l = l.
Proof.
  induction l as [|x t IH]; intros Hp; simpl; [reflexivity |].
  rewrite (Hp x) by now left.
  f_equal. apply IH. intros y Hy. apply Hp. now right.
Qed.

Lemma filter_refine {A : Type} (p q : A -> bool) (l : list A) :
  (forall x, p x = true -> q x = true) ->
  filter p (filter q l) = filter p l.
Proof.
  intros Hpq. induction l as [|x t IH]; simpl; [reflexivity |].
  destruct (q x) eqn:Eq; simpl.
  - now rewrite IH.
  - destruct (p x) eqn:Ep; [| exact IH].
    apply Hpq in Ep. congruence.
Qed.

Lemma ci_substring_shorter (q r s : string) :
  ci_substring (q ++ r) s -> ci_substring q s /\ ci_substring r s.
Proof.
  intros (pre & mid & post & -> & Hsame).
  apply toLowerCase_same in Hsame. unfold JsString.toLowerCase in Hsame.
  rewrite map_units_append in Hsame.
  apply map_units_split in Hsame as (m1 & m2 & -> & E1 & E2).
  split.
  - exists pre, m1, (m2 ++ post)%string.
    split; [now rewrite !append_assoc |].
    now apply toLowerCase_same.
  - exists (pre ++ m1)%string, m2, post.
    split; [now rewrite !append_assoc |].
    now apply toLowerCase_same.
Qed.

Lemma matches_shorter (q r : string) (f : Flight) :
  matches (q ++ r) f = true -> matches q f = true /\ matches r f = true.
Proof.
  unfold matches. rewrite !orb_true_iff, !field_matches_spec.
  intros [[[Hm | Hm] | Hm] | Hm]; apply ci_substring_shorter in Hm; tauto.
Qed.

Lemma matches_empty (f : Flight) : matches EmptyString f = true.
Proof.
  unfold matches, field_matches. simpl JsString.toLowerCase.
  now rewrite includes_empty.
Qed.

(** X7. With an empty search term the table shows every flight, in the
    order of the feed. *)
Theorem empty_search_shows_all (flights : list Flight) :
  filteredFlights flights EmptyString = flights.
Proof.
  unfold filteredFlights. apply filter_all. intros f _.
  apply matches_empty.
Qed.

(** X8. Extending the search term narrows the result: the flights found
    for a term are found, in the same order, among those found for any
    beginning or any end of it. *)
Theorem longer_search_narrows (flights : list Flight) (q r : string) :
  filteredFlights (filteredFlights flights q) (q ++ r)
    = filteredFlights flights (q ++ r) /\
  filteredFlights (filteredFlights flights r) (q ++ r)
    = filteredFlights flights (q ++ r).
Proof.
  unfold filteredFlights. split; apply filter_refine; intros f Hf;
    now apply matches_shorter in Hf.
Qed.

(** X9. The case of the letters of the search term does not matter: two
    terms that differ only in case find the same flights. *)
Theorem search_ignores_case (flights : list Flight) (q q' : string) :
  same_text q q' -> filteredFlights flights q = filteredFlights flights q'.
Proof.
  intros Hsame. apply toLowerCase_same in Hsame.
  unfold filteredFlights. apply filter_ext. intros f.
  unfold matches, field_matches. now rewrite Hsame.
Qed.

(** ** Key figures *)



(** ** Order of the chart entries *)

Lemma filter_filter {A : Type} (p q : A -> bool) (l : list A) :
  filter p (filter q l) = filter (fun x => q x && p x) l.
Proof.
  induction l as [|x t IH]; simpl; [reflexivity |].
  destruct (q x); simpl; [destruct (p x) |]; now rewrite IH.
Qed.

Section FirstSeen.
Context {K : Type} (eqb : K -> K -> bool).
Hypothesis eqb_eq : forall a b, eqb a b = true <-> a = b.

Lemma keys_set (k : K) (v : Z) (o : JsObject.obj) :
  JsObject.keys (JsObject.set eqb k v o)
  = if existsb (eqb k) (JsObject.keys o)
    then JsObject.keys o
    else JsObject.keys o ++ [k].
Proof.
  unfold JsObject.keys. induction o as [|[k0 v0] t IH]; simpl.
  - reflexivity.
  - destruct (eqb k k0); simpl; [reflexivity |].
    rewrite IH. now destruct (existsb (eqb k) (map fst t)).
Qed.

Lemma tally_first_seen (ks : list K) (acc : JsObject.obj) :
  JsObject.keys (tally eqb ks acc)
  = JsObject.keys acc
    ++ filter (fun x => negb (existsb (eqb x) (JsObject.keys acc)))
              (first_seen eqb ks).
Proof.
  revert acc. induction ks as [|k t IH]; intros acc.
  - simpl. now rewrite app_nil_r.
  - rewrite tally_cons, IH. unfold count_up. rewrite keys_set.
    simpl first_seen. simpl filter.
    destruct (existsb (eqb k) (JsObject.keys acc)) eqn:Ek; simpl negb.
    + f_equal. symmetry. apply filter_refine.
      intros x Hx. apply negb_true_iff in Hx. apply negb_true_iff.
      destruct (eqb x k) eqn:Exk; [| reflexivity].
      apply eqb_eq in Exk. congruence.
    + rewrite <- app_assoc. simpl. do 2 f_equal.
      rewrite filter_filter. apply filter_ext. intros x.
      rewrite existsb_app. simpl. rewrite orb_false_r, negb_orb.
      apply andb_comm.
Qed.

Lemma tally_order (ks : list K) :
  JsObject.keys (tally eqb ks []) = first_seen eqb ks.
Proof.
  rewrite tally_first_seen. simpl. apply filter_all. reflexivity.
Qed.

End FirstSeen.

Section Stable.
Context {A : Type} (key : A -> Z).

Lemma insert_stable (c : Z) (x : A) (l : list A) :
  filter (fun e => key e =? c)
         (JsArray.insert (fun a b => key b - key a) x l)
  = filter (fun e => key e =? c) (x :: l).
Proof.
  induction l as [|y t IH]; [reflexivity |].
  simpl JsArray.insert.
  destruct (Z.leb_spec (key y - key x) 0) as [Hle | Hgt]; [reflexivity |].
  simpl in IH |- *. rewrite IH.
  destruct (Z.eqb_spec (key x) c) as [Ex | Nx]; [| reflexivity].
  destruct (Z.eqb_spec (key y) c) as [Ey | Ny]; [lia | reflexivity].
Qed.

Lemma sort_stable (c : Z) (l : list A) :
  filter (fun e => key e =? c) (JsArray.sort (fun a b => key b - key a) l)
  = filter (fun e => key e =? c) l.
Proof.
  induction l as [|x t IH]; [reflexivity |].
  simpl JsArray.sort. rewrite insert_stable. simpl. now rewrite IH.
Qed.

End Stable.

Lemma total_take_le (n : nat) (l : list Z) :
  Forall (fun c => 0 <= c) l -> total (firstn n l) <= total l.
Proof.
  intros Hl. revert n. induction Hl as [|c t Hc Ht IH]; intros [|n]; simpl;
    try lia.
  - clear IH. induction Ht; simpl in *; lia.
  - specialize (IH n). lia.
Qed.

Lemma total_perm (l l' : list Z) : Permutation l l' -> total l = total l'.
Proof. induction 1; simpl; lia. Qed.

Lemma movements_length (flights : list Flight) :
  List.length (movements flights) = (2 * List.length flights)%nat.
Proof. induction flights as [|f t IH]; simpl; lia. Qed.

(** X11. The status chart has one slice per status that occurs, in the
    order in which the statuses first occur in the feed; the i-th label,
    the i-th count and the i-th colour belong to the same status: its
    name, the number of records that have it and its colour; there are
    at most five slices. *)
Theorem status_chart_slices (flights : list Flight) :
  let chart := getFlightStatusData flights in
  let seen := first_seen Status_beq (map status flights) in
  status_labels chart = map (fun s => Str (status_label s)) seen /\
  status_data chart
    = map (fun s => Z.of_nat (count_occ Status_eq_dec (map status flights) s))
          seen /\
  status_colors chart = map status_color seen /\
  List.length (status_data chart) = List.length seen /\
  (List.length seen <= 5)%nat.
Proof.
  cbv zeta. unfold getFlightStatusData. simpl.
  rewrite statusCounts_tally.
  set (ks := map status flights).
  assert (Hdata : JsObject.values (tally Status_beq ks [])
                  = map (fun s => Z.of_nat (count_occ Status_eq_dec ks s))
                        (JsObject.keys (tally Status_beq ks []))).
  { unfold JsObject.values, JsObject.keys. rewrite map_map.
    apply map_ext_in. intros [k v] Hkv. simpl.
    now apply (tally_entry Status_beq Status_beq_eq Status_eq_dec). }
  rewrite Hdata, (tally_order Status_beq Status_beq_eq).
  split; [apply map_ext; intros s; apply wrapLabel_status |].
  split; [reflexivity |]. split; [reflexivity |]. split.
  - now rewrite length_map.
  - rewrite <- (tally_order Status_beq Status_beq_eq).
    apply (NoDup_incl_length (l' := statuses)).
    + apply (tally_NoDup Status_beq Status_beq_eq). constructor.
    + intros s _. destruct s; simpl; auto 6.
Qed.

(** X12. Ties in the airport ranking keep the order of first encounter:
    the ranking is the counter entries, which stand in the order in which
    the codes first occur (origin before destination, record by record),
    rearranged so that among entries with the same count nothing changes
    place. *)
Theorem top_airports_ties (n : nat) (flights : list Flight) :
  exists ranked,
    topAirports (Z.of_nat n) flights = firstn n ranked /\
    Permutation ranked (airportCounts flights) /\
    map fst (airportCounts flights)
      = first_seen Airport_beq (movements flights) /\
    forall c, filter (fun e => snd e =? c) ranked
              = filter (fun e => snd e =? c) (airportCounts flights).
Proof.
  exists (JsArray.sort (fun a b : Airport * Z => snd b - snd a)
            (airportCounts flights)).
  split; [| split; [| split]].
  - rewrite topAirports_take. now rewrite airportCounts_tally.
  - apply (sort_perm snd).
  - rewrite airportCounts_tally.
    apply (tally_order Airport_beq Airport_beq_eq).
  - intros c. apply (sort_stable snd).
Qed.

(** X13. The bars of the airport chart add up to at most two movements
    per flight, and to exactly that when at most five different airports
    occur. *)
Theorem airport_chart_total (flights : list Flight) :
  total (airport_data (getTopAirportsData flights))
    <= 2 * Z.of_nat (List.length flights) /\
  ((List.length (nodup Airport_eq_dec (movements flights)) <= 5)%nat ->
   total (airport_data (getTopAirportsData flights))
     = 2 * Z.of_nat (List.length flights)).
Proof.
  unfold getTopAirportsData, sortedAirports. simpl airport_data.
  change 5 with (Z.of_nat 5). rewrite topAirports_take.
  set (counts := tally Airport_beq (movements flights) []).
  set (sorted := JsArray.sort (fun a b : Airport * Z => snd b - snd a) counts).
  assert (Hperm : Permutation sorted counts) by apply (sort_perm snd).
  assert (Htotal : total (map snd sorted) = 2 * Z.of_nat (List.length flights)).
  { rewrite (total_perm _ _ (Permutation_map snd Hperm)). subst counts.
    change (map snd (tally Airport_beq (movements flights) []))
      with (JsObject.values (tally Airport_beq (movements flights) [])).
    rewrite (tally_total Airport_beq Airport_beq_eq), movements_length.
    unfold JsObject.values, total. simpl map. simpl fold_right. lia. }
  assert (Hpos : Forall (fun c => 0 <= c) (map snd sorted)).
  { apply Forall_map, Forall_forall. intros [a c] Hin. simpl.
    apply (Permutation_in _ Hperm) in Hin.
    apply (tally_entry Airport_beq Airport_beq_eq Airport_eq_dec) in Hin.
    lia. }
  rewrite <- firstn_map. split.
  - rewrite <- Htotal. now apply total_take_le.
  - intros Hfew. rewrite firstn_all2; [exact Htotal |].
    rewrite length_map, (Permutation_length Hperm). subst counts.
    now rewrite (tally_distinct Airport_beq Airport_beq_eq Airport_eq_dec).
Qed.

(** ** Wrapped labels and tooltips *)

Section WrappedLabels.
Local Open Scope string_scope.

Lemma trimStart_cases (u : string) :
  JsString.trimStart u = "" \/ starts_solid (JsString.trimStart u).
Proof.
  induction u as [|c u IH]; simpl; [now left |].
  destruct (JsString.is_space c) eqn:Ec; [exact IH | now right].
Qed.

Lemma trimEnd_cases (u : string) :
  JsString.trimEnd u = "" \/ ends_solid (JsString.trimEnd u).
Proof.
  induction u as [|c u IH]; simpl; [now left |].
  destruct (JsString.trimEnd u) as [|d t] eqn:Et.
  - destruct (JsString.is_space c) eqn:Ec; [now left | now right].
  - right. destruct IH as [IH | IH]; [discriminate | exact IH].
Qed.

Lemma trimEnd_keeps_start (u : string) :
  starts_solid u -> starts_solid (JsString.trimEnd u).
Proof.
  destruct u as [|c u]; simpl; [tauto | intros Hc].
  destruct (JsString.trimEnd u); [now rewrite Hc | exact Hc].
Qed.

Lemma trim_trim (u : string) :
  JsString.trim (JsString.trim u) = JsString.trim u.
Proof.
  unfold JsString.trim at 2 3.
  destruct (trimStart_cases u) as [-> | Hs]; [reflexivity |].
  apply trimEnd_keeps_start in Hs.
  destruct (trimEnd_cases (JsString.trimStart u)) as [E | He].
  - rewrite E in Hs. contradiction.
  - now apply trim_solid.
Qed.

Lemma wrap_loop_lines (P : string -> Prop) (words lines : list string)
  (currentLine : string) :
  (forall u, P (JsString.trim u)) -> Forall P lines ->
  Forall P (fst (fold_left wrap_step words (lines, currentLine))).
Proof.
  intros HP. revert lines currentLine.
  induction words as [|w words IH]; intros lines cur Hl; [exact Hl |].
  simpl. destruct (_ <? _)%nat; apply IH; [| exact Hl].
  unfold push_line. destruct (JsString.truthy cur); [| exact Hl].
  apply Forall_app. split; [exact Hl | constructor; [apply HP | constructor]].
Qed.

Lemma wrapLabel_tidy (s : string) :
  (maxLength < String.length s)%nat -> tidy s = true ->
  exists lines, wrapLabel (Str s) = Arr lines /\ String.concat " " lines = s.
Proof.
  intros Hs Htidy. unfold wrapLabel.
  destruct (Nat.leb_spec (String.length s) maxLength) as [Hle | _]; [lia |].
  destruct (fold_left wrap_step (JsString.split " " s) ([], EmptyString))
    as [lines cur] eqn:Eloop.
  exists (push_line lines cur). split; [reflexivity |].
  apply tidy_words in Htidy.
  pose proof (concat_split s) as Hjoin.
  destruct (JsString.split " " s) as [|w rest] eqn:Ewords.
  { now apply split_not_nil in Ewords. }
  change (fold_left wrap_step (w :: rest) ([], EmptyString))
    with (fold_left wrap_step rest (wrap_step ([], EmptyString) w))
    in Eloop.
  rewrite wrap_first_word in Eloop.
  apply Forall_cons_iff in Htidy as [[Hw _] Hrest].
  destruct (wrap_loop_tidy rest Hrest [] w Hw I) as (Hs' & Hcat & _).
  rewrite Eloop in Hs', Hcat. simpl fst in *. simpl snd in *.
  unfold push_line. rewrite (solid_truthy _ Hs'), (trim_solid _ Hs').
  now rewrite Hcat.
Qed.

Lemma title_of_wrapLabel (s : string) :
  (String.length s <= maxLength)%nat \/ tidy s = true ->
  title_of (wrapLabel (Str s)) = s.
Proof.
  intros Hs.
  destruct (Nat.leb_spec (String.length s) maxLength) as [Hle | Hlong].
  - unfold wrapLabel.
    now destruct (Nat.leb_spec (String.length s) maxLength); [| lia].
  - destruct Hs as [Hle | Htidy]; [lia |].
    destruct (wrapLabel_tidy s Hlong Htidy) as (lines & -> & Hcat).
    exact Hcat.
Qed.

(** X14. The tooltip undoes the wrapping: for chart labels made by
    wrapLabel from names each of which is at most 16 characters long or
    [tidy] (cut at its spaces it has no empty word and no word that
    starts or ends with white space), the tooltip title of an item is the
    name at its index, and there is none outside the labels. *)
Theorem tooltip_restores_name (names : list string) (dataIndex : nat) :
  Forall (fun s => (String.length s <= maxLength)%nat \/ tidy s = true)
         names ->
  tooltip_title (map (fun s => wrapLabel (Str s)) names) dataIndex
    = nth_error names dataIndex.
Proof.
  intros Hnames. unfold tooltip_title. rewrite nth_error_map.
  destruct (nth_error names dataIndex) as [s|] eqn:E; [| reflexivity].
  simpl. f_equal. apply title_of_wrapLabel.
  rewrite Forall_forall in Hnames. apply Hnames.
  eapply nth_error_In. exact E.
Qed.

(** X15. No line of a wrapped label starts or ends with white space:
    trimming a line again changes nothing. *)
Theorem wrapped_lines_trimmed (s : string) (lines : list string) :
  wrapLabel (Str s) = Arr lines ->
  Forall (fun line => JsString.trim line = line) lines.
Proof.
  unfold wrapLabel. destruct (_ <=? _)%nat; [discriminate |].
  pose proof (wrap_loop_lines (fun line => JsString.trim line = line)
                (JsString.split " " s) [] "" trim_trim (Forall_nil _))
    as Hloop.
  destruct (fold_left wrap_step (JsString.split " " s) ([], ""))
    as [ls cur]. simpl in Hloop.
  intros E. injection E as <-.
  unfold push_line. destruct (JsString.truthy cur); [| exact Hloop].
  apply Forall_app. split; [exact Hloop |].
  constructor; [apply trim_trim | constructor].
Qed.

End WrappedLabels.

(** ** The detail modal *)

Lemma handled_last (events : list UiEvent) (e : UiEvent) (ui : Ui) :
  fold_left handle (events ++ [e]) ui
  = match e with
    | Details flight => mkUi (Some flight) true
    | Close => mkUi None false
    end.
Proof. rewrite fold_left_app. simpl. now destruct e. Qed.

(** X16. Whatever the sequence of Details and close clicks, the modal is
    open exactly when a flight is selected, and it is rendered exactly
    when it is open: while open, FlightDetailModal is never given
    [null]. *)
Theorem modal_open_has_flight (events : list UiEvent) :
  let ui := fold_left handle events initialUi in
  (isModalOpen ui = true <-> exists f, selectedFlight ui = Some f) /\
  (modal ui <> None <-> isModalOpen ui = true).
Proof.
  cbv zeta. induction events as [|e events' _] using rev_ind.
  - simpl. unfold modal. simpl. split; split;
      try discriminate; try congruence. intros [f Hf]. discriminate.
  - rewrite handled_last. destruct e; unfold modal; simpl.
    + split; split; try (intros _; reflexivity);
        try discriminate; intros _; eauto.
    + split; split; try discriminate; try congruence.
      intros [f Hf]. discriminate.
Qed.

Lemma suffixed_not_na (n : Z) (unit : string) :
  (3 < String.length unit)%nat ->
  (JsString.of_integer n ++ unit)%string <> "N/A"%string.
Proof.
  intros Hu E. apply (f_equal String.length) in E.
  rewrite length_append in E. simpl in E. lia.
Qed.

Section ModalTexts.
Context `{Host}.

(** X17. For every record of a feed on draws of [0, 1) the modal shows
    the delay note exactly when the flight is Delayed, shows a speed
    exactly when it is Departed and N/A otherwise, shows N/A for the
    altitude of every flight that is not Departed, and places the three
    route markers at 0, 45 and 90 percent. *)
Theorem modal_texts (flights : list Flight) :
  reachable_unit flights ->
  Forall (fun f =>
    exists v, FlightDetailModal (Some f) = Some v /\
      (mv_delay_note v <> None <-> status f = Delayed) /\
      (mv_speed v = "N/A"%string <-> status f <> Departed) /\
      (status f <> Departed -> mv_altitude v = "N/A"%string) /\
      Forall2 (fun m q => exists x, m = Some x /\ (x == q)%Q)
              (mv_markers v) [0; 45; 90]%Q) flights.
Proof.
  intros Hr. apply unit_feed_ranges in Hr.
  eapply Forall_impl; [| exact Hr].
  intros f (Hd & Hnd & Hdep & Hndep & _ & _ & _ & Hlen & _).
  eexists. split; [reflexivity |]. simpl. repeat split.
  - destruct (status f) eqn:Es; simpl; rewrite ?andb_false_r;
      try congruence.
  - intros Es. rewrite Es. simpl. rewrite andb_true_r.
    specialize (Hd Es).
    destruct (Z.ltb_spec 0 (isDelayed f)); [discriminate | lia].
  - intros Etext Es. specialize (Hdep Es).
    destruct (Z.ltb_spec 0 (speed f)) as [_ | Hle]; [| lia].
    revert Etext. apply suffixed_not_na. simpl. lia.
  - intros Es. destruct (Hndep Es) as [_ ->]. reflexivity.
  - intros Es. destruct (Hndep Es) as [-> _]. reflexivity.
  - rewrite Hlen. simpl.
    repeat (constructor; [eexists; split; [reflexivity | reflexivity] |]).
    constructor.
Qed.

End ModalTexts.

(** ** The hourly chart *)

(** X18. On draws of [0, 1) the hourly chart has six labels, the hours
    of the five preceding hours and of the current one, oldest first, and
    six counts of which the i-th (from 0) lies between 5 i and 5 i + 19;
    so every count is below 45 and a count is always larger than the one
    four places before it. *)
Theorem hourly_series_shape (getHours : Z -> Z) (w : World) :
  unit_world w ->
  let series := fst (getFlightsPerHourData getHours w) in
  hour_labels series
    = map (fun k => (JsString.of_integer
                       (getHours (clock w 0%nat - k * 3600000))
                       ++ ":00")%string)
          [5; 4; 3; 2; 1; 0] /\
  Forall2 (fun i c => 5 * i <= c < 5 * i + 20) (indices 6)
          (hour_data series).
Proof.
  intros Hw. cbv zeta. unfold getFlightsPerHourData.
  rewrite !run_bind. simpl fst at 1. split; [reflexivity |].
  assert (Hunit : unit_world (snd (Date_now w))) by (intros n; apply Hw).
  cbn [hour_data fst ret].
  match goal with
  | |- context [indices (List.length ?l)] =>
      replace (List.length l) with 6%nat
        by (now rewrite length_rev, length_map)
  end.
  apply (yields_mapM _ (fun i c => 5 * i <= c < 5 * i + 20) (indices 6));
    [| exact Hunit].
  intros i. eapply yields_bind; [apply (yields_random_below 20); lia |].
  intros n Hn. cbv beta in Hn. apply yields_ret. lia.
Qed.

(** ** The further properties at sample values *)

Lemma sample_feed_unit :
  reachable_unit (fst (tick (fst (initialFlights sample_world)) sample_world)).
Proof.
  apply reach_unit_tick; [exact sample_world_unit |].
  apply reach_unit_init. exact sample_world_unit.
Defined.

Lemma generated_in_range_witness :
  unit_world sample_world /\
  in_range (fst (generateMockFlight sample_world)).
Proof.
  split; [exact sample_world_unit |].
  apply generated_in_range. exact sample_world_unit.
Defined.

Lemma flight_numbers_formed_witness :
  reachable_unit (fst (tick (fst (initialFlights sample_world)) sample_world))
  /\ Forall numbered
       (fst (tick (fst (initialFlights sample_world)) sample_world)).
Proof.
  split; [exact sample_feed_unit |].
  apply flight_numbers_formed. exact sample_feed_unit.
Defined.

Lemma feed_size_constant_witness :
  reachable (fst (tick (fst (initialFlights sample_world)) sample_world)) /\
  List.length (fst (tick (fst (initialFlights sample_world)) sample_world))
    = 50%nat.
Proof.
  split; [apply reach_tick, reach_init |].
  apply feed_size_constant. apply reach_tick, reach_init.
Defined.

Lemma feed_in_range_witness :
  reachable_unit (fst (tick (fst (initialFlights sample_world)) sample_world))
  /\ Forall (fun f => in_range f /\ (status f = Delayed <-> 0 < isDelayed f))
       (fst (tick (fst (initialFlights sample_world)) sample_world)).
Proof.
  split; [exact sample_feed_unit |].
  apply feed_in_range. exact sample_feed_unit.
Defined.

Lemma sample_update_changes :
  fst (tick_update (sample_flight OnTime 0 0 0) sample_world)
    <> sample_flight OnTime 0 0 0.
Proof.
  intros E. apply (f_equal status) in E. vm_compute in E. discriminate.
Defined.

Lemma record_changes_once_witness :
  fst (tick_update (sample_flight OnTime 0 0 0) sample_world)
    <> sample_flight OnTime 0 0 0 /\
  fst (tick_update
         (fst (tick_update (sample_flight OnTime 0 0 0) sample_world))
         sample_world)
    = fst (tick_update (sample_flight OnTime 0 0 0) sample_world).
Proof.
  split; [exact sample_update_changes |].
  apply record_changes_once. exact sample_update_changes.
Defined.

Lemma sample_same_text : same_text "jfk" "JFK".
Proof.
  repeat (apply same_cons; [right; right; split; reflexivity |]).
  apply same_empty.
Defined.

Lemma search_ignores_case_witness :
  same_text "jfk" "JFK" /\
  filteredFlights [sample_flight Delayed 25 0 0] "jfk"
    = filteredFlights [sample_flight Delayed 25 0 0] "JFK".
Proof.
  split; [exact sample_same_text |].
  apply search_ignores_case. exact sample_same_text.
Defined.

Lemma sample_names_wrappable :
  Forall (fun s => (String.length s <= maxLength)%nat \/ tidy s = true)
         ["On Time"; "Boeing 747 Freighter"]%string.
Proof.
  constructor; [left; unfold maxLength; simpl; lia |].
  constructor; [right; reflexivity | constructor].
Defined.

Lemma tooltip_restores_name_witness :
  Forall (fun s => (String.length s <= maxLength)%nat \/ tidy s = true)
         ["On Time"; "Boeing 747 Freighter"]%string /\
  tooltip_title
    (map (fun s => wrapLabel (Str s)) ["On Time"; "Boeing 747 Freighter"]%string)
    1
  = Some "Boeing 747 Freighter"%string.
Proof.
  split; [exact sample_names_wrappable |].
  apply (tooltip_restores_name _ 1 sample_names_wrappable).
Defined.

Lemma wrapped_lines_trimmed_witness :
  wrapLabel (Str "Boeing 747 Freighter")
    = Arr ["Boeing 747"; "Freighter"]%string /\
  Forall (fun line => JsString.trim line = line)
         ["Boeing 747"; "Freighter"]%string.
Proof.
  split; [reflexivity |].
  apply (wrapped_lines_trimmed "Boeing 747 Freighter"). reflexivity.
Defined.

Lemma modal_texts_witness :
  reachable_unit (fst (tick (fst (initialFlights sample_world)) sample_world))
  /\ Forall (fun f =>
       exists v, FlightDetailModal (Some f) = Some v /\
         (mv_delay_note v <> None <-> status f = Delayed) /\
         (mv_speed v = "N/A"%string <-> status f <> Departed) /\
         (status f <> Departed -> mv_altitude v = "N/A"%string) /\
         Forall2 (fun m q => exists x, m = Some x /\ (x == q)%Q)
                 (mv_markers v) [0; 45; 90]%Q)
       (fst (tick (fst (initialFlights sample_world)) sample_world)).
Proof.
  split; [exact sample_feed_unit |].
  apply modal_texts. exact sample_feed_unit.
Defined.

Lemma hourly_series_shape_witness :
  unit_world sample_world /\
  Forall2 (fun i c => 5 * i <= c < 5 * i + 20) (indices 6)
    (hour_data
       (fst (getFlightsPerHourData (fun t => (t / 3600000) mod 24)
                                   sample_world))).
Proof.
  split; [exact sample_world_unit |].
  apply (hourly_series_shape _ sample_world sample_world_unit).
Defined.

(** The hourly chart in the sample world, read in UTC. *)
Example hourly_sample :
  fst (getFlightsPerHourData (fun t => (t / 3600000) mod 24) sample_world)
  = mkHourData ["17:00"; "18:00"; "19:00"; "20:00"; "21:00"; "22:00"]%string
               [1; 15; 29; 21; 21; 39].
Proof. vm_compute. reflexivity. Qed.

Lemma airport_chart_total_witness :
  (List.length
     (nodup Airport_eq_dec (movements [sample_flight OnTime 0 0 0])) <= 5)%nat
  /\ total (airport_data (getTopAirportsData [sample_flight OnTime 0 0 0]))
     = 2 * Z.of_nat (List.length [sample_flight OnTime 0 0 0]).
Proof.
  assert (Hfew : (List.length
                    (nodup Airport_eq_dec
                       (movements [sample_flight OnTime 0 0 0])) <= 5)%nat)
    by (vm_compute; lia).
  split; [exact Hfew |].
  apply (proj2 (airport_chart_total [sample_flight OnTime 0 0 0])).
  exact Hfew.
Defined.
